(** * obsidian-tolerant-math: the tolerant matcher and its two scanners

    A shallow embedding of [src/main.ts] (and of its built artefact
    [main.js]): the regular expression [TOLERANT_MATH_REGEX] with the
    backtracking semantics of an ECMAScript engine, the stateful
    [exec]/[test] protocol around [lastIndex], the Live Preview scanner
    [buildDecorations], the widget's [toDOM], and the Reading View scanner
    [processElement] / [replaceTextNodeWithMath]. *)

From Stdlib Require Import String Ascii.
From Stdlib Require Import Bool Arith NArith Lia List Sorted.
Import ListNotations.

Set Implicit Arguments.

(** ** JavaScript strings

    A JavaScript string is a sequence of UTF-16 code units.  The regular
    expression has no [u] flag, so it works code unit by code unit. *)

Definition char := N.
Definition JsString := list char.

(** A literal of the development, read as code units (ASCII range). *)
Definition js (s : string) : JsString := map N_of_ascii (list_ascii_of_string s).

Definition DOLLAR : char := 36%N.
Definition SPACE : char := 32%N.
Definition TAB : char := 9%N.
Definition NEWLINE : char := 10%N.

Definition char_eqb (a b : char) : bool := N.eqb a b.

Fixpoint str_eqb (a b : JsString) : bool :=
  match a, b with
  | [], [] => true
  | x :: a', y :: b' => char_eqb x y && str_eqb a' b'
  | _, _ => false
  end.

(** [s.slice(from, to)] and [s.slice(from)] for [0 <= from], [0 <= to]. *)
Definition slice (s : JsString) (from to : nat) : JsString :=
  firstn (to - from) (skipn from s).

Definition slice_from (s : JsString) (from : nat) : JsString := skipn from s.

(** [String.prototype.includes]. *)
Fixpoint starts_with (needle s : JsString) : bool :=
  match needle, s with
  | [], _ => true
  | x :: n', y :: s' => char_eqb x y && starts_with n' s'
  | _ :: _, [] => false
  end.

Fixpoint includes (s needle : JsString) : bool :=
  starts_with needle s ||
  match s with
  | [] => false
  | _ :: s' => includes s' needle
  end.

(** The code units [String.prototype.trim] strips: ECMAScript's WhiteSpace
    and LineTerminator productions. *)
Definition is_js_whitespace (c : char) : bool :=
  existsb (N.eqb c)
    [9; 10; 11; 12; 13; 32; 160; 5760; 8192; 8193; 8194; 8195; 8196; 8197;
     8198; 8199; 8200; 8201; 8202; 8232; 8233; 8239; 8287; 12288; 65279]%N.

Fixpoint trimStart (s : JsString) : JsString :=
  match s with
  | c :: s' => if is_js_whitespace c then trimStart s' else s
  | [] => []
  end.

Definition trimEnd (s : JsString) : JsString := rev (trimStart (rev s)).

Definition trim (s : JsString) : JsString := trimEnd (trimStart s).

(** ** Regular expressions: the fragment [TOLERANT_MATH_REGEX] is written in *)

Module Regex.

(** What matches one code unit. *)
Inductive Atom :=
| Chr (c : char)                  (* an escaped literal such as [\$] *)
| Cls (cs : list char)            (* a class [[...]]  *)
| NegCls (cs : list char).        (* a class [[^...]] *)

Definition accepts (a : Atom) (c : char) : bool :=
  match a with
  | Chr d => char_eqb c d
  | Cls cs => existsb (char_eqb c) cs
  | NegCls cs => negb (existsb (char_eqb c) cs)
  end.

Inductive t :=
| One (a : Atom)                  (* a *)
| Plus (a : Atom)                 (* a+   greedy *)
| PlusLazy (a : Atom)             (* a+?  lazy *)
| Group (r : t)                   (* ( r )  capture group 1 *)
| Seq (r1 r2 : t)                 (* r1 r2 *)
| NotBehind (a : Atom)            (* (?<!a) *)
| NotAhead (a : Atom).            (* (?!a)  *)

(** A position in the subject: the code units before it, nearest first,
    and the code units after it. *)
Record Pos := mkPos { before : list char; after : list char }.

Definition index_of (p : Pos) : nat := length (before p).

(** The text between two positions, the second reached from the first. *)
Definition between (p q : Pos) : JsString :=
  rev (firstn (index_of q - index_of p) (before q)).

Definition Capture := option JsString.

Section Matcher.
Variable R : Type.
Definition Cont := Pos -> Capture -> option R.

(** [a*] greedy: take as many as possible, give back one at a time. *)
Fixpoint star_greedy (a : Atom) (b af : list char) (cap : Capture)
         (k : Cont) : option R :=
  match af with
  | c :: af' =>
      if accepts a c then
        match star_greedy a (c :: b) af' cap k with
        | Some r => Some r
        | None => k (mkPos b af) cap
        end
      else k (mkPos b af) cap
  | [] => k (mkPos b af) cap
  end.

(** [a*?] lazy: try the continuation first, take one more on failure. *)
Fixpoint star_lazy (a : Atom) (b af : list char) (cap : Capture)
         (k : Cont) : option R :=
  match k (mkPos b af) cap with
  | Some r => Some r
  | None =>
      match af with
      | c :: af' =>
          if accepts a c then star_lazy a (c :: b) af' cap k else None
      | [] => None
      end
  end.

(** The backtracking matcher, in continuation-passing style. *)
Fixpoint run (r : t) (p : Pos) (cap : Capture) (k : Cont) : option R :=
  match r with
  | One a =>
      match after p with
      | c :: af' =>
          if accepts a c then k (mkPos (c :: before p) af') cap else None
      | [] => None
      end
  | Plus a =>
      match after p with
      | c :: af' =>
          if accepts a c then star_greedy a (c :: before p) af' cap k
          else None
      | [] => None
      end
  | PlusLazy a =>
      match after p with
      | c :: af' =>
          if accepts a c then star_lazy a (c :: before p) af' cap k
          else None
      | [] => None
      end
  | Group r1 => run r1 p cap (fun q _ => k q (Some (between p q)))
  | Seq r1 r2 => run r1 p cap (fun q cap' => run r2 q cap' k)
  | NotBehind a =>
      match before p with
      | c :: _ => if accepts a c then None else k p cap
      | [] => k p cap
      end
  | NotAhead a =>
      match after p with
      | c :: _ => if accepts a c then None else k p cap
      | [] => k p cap
      end
  end.
End Matcher.

(** One attempt at a fixed start position. *)
Definition match_at (r : t) (p : Pos) : option (Pos * Capture) :=
  run r p None (fun q cap => Some (q, cap)).

End Regex.

Import Regex.

Declare Scope regex_scope.
Delimit Scope regex_scope with regex.
Infix "+>" := Seq (at level 60, right associativity) : regex_scope.

(** [/(?<!\$)\$[ \t]+([^\$\n]+?)[ \t]+\$(?!\$)/g] *)
Definition TOLERANT_MATH_REGEX : Regex.t :=
  (NotBehind (Chr DOLLAR) +>
   One (Chr DOLLAR) +>
   Plus (Cls [SPACE; TAB]) +>
   Group (PlusLazy (NegCls [DOLLAR; NEWLINE])) +>
   Plus (Cls [SPACE; TAB]) +>
   One (Chr DOLLAR) +>
   NotAhead (Chr DOLLAR))%regex.

(** ** The result of [RegExp.prototype.exec] *)

Record Match := mkMatch {
  index : nat;          (* match.index *)
  m0 : JsString;        (* match[0] *)
  m1 : JsString         (* match[1] *)
}.

(** The search of [exec]: try each start position from the current one on. *)
Fixpoint search (r : Regex.t) (b af : list char) : option Match :=
  match match_at r (mkPos b af) with
  | Some (q, cap) =>
      Some {| index := length b;
              m0 := between (mkPos b af) q;
              m1 := match cap with Some s => s | None => [] end |}
  | None =>
      match af with
      | [] => None
      | c :: af' => search r (c :: b) af'
      end
  end.

(** The search started at offset [i <= length text]. *)
Definition search_from (r : Regex.t) (text : JsString) (i : nat) : option Match :=
  search r (rev (firstn i text)) (skipn i text).

Definition match_end (m : Match) : nat := index m + length (m0 m).

(** ** The DOM, as far as the plugin touches it *)

#[warnings="-register-all"] Inductive Node :=
| TextNode (textContent : JsString)
| ElementNode (tagName : JsString) (classList : list JsString)
              (childNodes : list Node).

(** An element on its own, as [renderMath] returns one. *)
Record HTMLElement := mkElement {
  tagName : JsString;
  classList : list JsString;
  childNodes : list Node
}.

Definition node_of (e : HTMLElement) : Node :=
  ElementNode (tagName e) (classList e) (childNodes e).

(** [classList.contains] and [classList.add]. *)
Definition contains (cl : list JsString) (c : JsString) : bool :=
  existsb (str_eqb c) cl.

Definition classList_add (e : HTMLElement) (c : JsString) : HTMLElement :=
  if contains (classList e) c then e
  else mkElement (tagName e) (classList e ++ [c]) (childNodes e).

(** ** The host: Obsidian's math renderer

    [renderMath(source, display)] returns an element or throws;
    [finishRenderMath()] flushes the render queue.  Both act on a state
    the plugin never sees. *)

Class Host := {
  MathJax : Type;
  host_renderMath : JsString -> bool -> MathJax -> option HTMLElement * MathJax;
  host_finishRenderMath : MathJax -> MathJax
}.

(** The calls made to the host, in order; a render call is recorded with
    whether it returned ([true]) or threw ([false]). *)
Inductive Call :=
| RenderMath (source : JsString) (display : bool) (returned : bool)
| FinishRenderMath.

Definition is_finish (c : Call) : bool :=
  match c with FinishRenderMath => true | RenderMath _ _ _ => false end.

Definition is_rendered (c : Call) : bool :=
  match c with RenderMath _ _ ok => ok | FinishRenderMath => false end.

Definition flushes (cs : list Call) : nat := length (filter is_finish cs).

Section Effects.
Context {H : Host}.

(** Everything the plugin's code can change besides the DOM it is handed:
    the [lastIndex] of the one shared [RegExp] object, and the host. *)
Record World := mkWorld {
  lastIndex : nat;
  mathjax : MathJax;
  calls : list Call
}.

(** A computation either finishes with a value and a new world, or
    exhausts the bound of a [while] loop ([None]). *)
Definition M (A : Type) : Type := World -> option (A * World).

Definition ret {A} (a : A) : M A := fun w => Some (a, w).

Definition bind {A B} (c : M A) (f : A -> M B) : M B :=
  fun w => match c w with
           | Some (a, w') => f a w'
           | None => None
           end.

Definition set_lastIndex (i : nat) : M unit :=
  fun w => Some (tt, mkWorld i (mathjax w) (calls w)).

(** [RegExp.prototype.exec] of the global regular expression. *)
Definition exec (text : JsString) : M (option Match) :=
  fun w =>
    if length text <? lastIndex w then
      Some (None, mkWorld 0 (mathjax w) (calls w))
    else
      match search_from TOLERANT_MATH_REGEX text (lastIndex w) with
      | Some m => Some (Some m, mkWorld (match_end m) (mathjax w) (calls w))
      | None => Some (None, mkWorld 0 (mathjax w) (calls w))
      end.

(** [RegExp.prototype.test]: an [exec] whose result is only tested. *)
Definition test (text : JsString) : M bool :=
  bind (exec text) (fun m => ret (match m with Some _ => true | None => false end)).

(** [renderMath(source, display)] inside [try]: [None] is the [catch]. *)
Definition renderMath (source : JsString) (display : bool)
  : M (option HTMLElement) :=
  fun w =>
    let (r, mj) := host_renderMath source display (mathjax w) in
    Some (r, mkWorld (lastIndex w) mj
               (calls w ++ [RenderMath source display
                              (match r with Some _ => true | None => false end)])).

Definition finishRenderMath : M unit :=
  fun w => Some (tt, mkWorld (lastIndex w) (host_finishRenderMath (mathjax w))
                       (calls w ++ [FinishRenderMath])).
End Effects.

Notation "x <- c1 ;; c2" := (bind c1 (fun x => c2))
  (at level 61, c1 at next level, right associativity).
Notation "' pat <- c1 ;; c2" := (bind c1 (fun x => match x with pat => c2 end))
  (at level 61, pat pattern, c1 at next level, right associativity).
Notation "c1 ;; c2" := (bind c1 (fun _ => c2))
  (at level 61, right associativity).

Section Loops.
Context {H : Host}.

(** [while ((match = TOLERANT_MATH_REGEX.exec(text)) !== null) body]:
    the loop state [S] holds the variables the body assigns.  Every
    iteration moves [lastIndex] forward, so [bound] iterations are enough
    for a text shorter than [bound]. *)
Fixpoint while_exec {S} (bound : nat) (text : JsString)
         (body : Match -> S -> M S) (s : S) : M S :=
  match bound with
  | 0 => fun _ => None
  | Datatypes.S n =>
      m <- exec text ;;
      match m with
      | None => ret s
      | Some mt => s' <- body mt s ;; while_exec n text body s'
      end
  end.

(** [for (const x of xs) body]. *)
Fixpoint for_of {A S} (xs : list A) (body : A -> S -> M S) (s : S) : M S :=
  match xs with
  | [] => ret s
  | x :: xs' => s' <- body x s ;; for_of xs' body s'
  end.

(** A full scan as both scanners do it: reset, then [exec] until null. *)
Definition scanAll (text : JsString) : M (list Match) :=
  set_lastIndex 0 ;;
  while_exec (S (length text)) text (fun m acc => ret (acc ++ [m])) [].
End Loops.

(** ** Live Preview: the widget *)

Record TolerantMathWidget := mkWidget { formula : JsString }.

(** [eq(other)]. *)
Definition TolerantMathWidget_eq (this other : TolerantMathWidget) : bool :=
  str_eqb (formula other) (formula this).

(** Assigning [textContent]: the children become one text node, or none for
    the empty string. *)
Definition set_textContent (e : HTMLElement) (s : JsString) : HTMLElement :=
  mkElement (tagName e) (classList e)
            (match s with [] => [] | _ => [TextNode s] end).

Definition appendChild (e : HTMLElement) (n : Node) : HTMLElement :=
  mkElement (tagName e) (classList e) (childNodes e ++ [n]).

Section Widget.
Context {H : Host}.

Definition toDOM (this : TolerantMathWidget) : M HTMLElement :=
  let span := mkElement (js "SPAN") [js "tolerant-math-widget"] [] in
  r <- renderMath (formula this) false ;;
  match r with
  | Some mathEl => ret (appendChild span (node_of mathEl))
  | None => ret (set_textContent span (js "$ " ++ formula this ++ js " $"))
  end.
End Widget.

(** ** Live Preview: the editor view the plugin reads *)

Record Range := mkRange { from : nat; to : nat }.

Record SyntaxNode := mkSyntaxNode {
  name : JsString;
  node_from : nat;
  node_to : nat
}.

(** [iterate from to] lists the nodes [syntaxTree(view.state).iterate]
    enters for that range, in order. *)
Record EditorView := mkView {
  doc : JsString;
  selection_ranges : list Range;
  visibleRanges : list Range;
  iterate : nat -> nat -> list SyntaxNode
}.

(** [view.state.doc.sliceString(from, to)]. *)
Definition sliceString (v : EditorView) (from to : nat) : JsString :=
  slice (doc v) from to.

(** One [builder.add(from, to, Decoration.replace({ widget }))]. *)
Record Decoration := mkDecoration {
  deco_from : nat;
  deco_to : nat;
  widget : TolerantMathWidget
}.

(** The [RangeSetBuilder], as the ranges added so far, oldest first.
    CodeMirror's builder refuses a range that starts before the one added
    last; the order of the additions is therefore what has to be right,
    and it is what the properties below are about. *)
Definition RangeSetBuilder := list Decoration.
Definition DecorationSet := list Decoration.

(** [toLowerCase] on syntax node names.  Outside A-Z no code unit
    lower-cases to one of [m], [a], [t], [h], so for the test below the
    ASCII mapping is the whole story. *)
Definition toLowerCase (s : JsString) : JsString :=
  map (fun c => if (65 <=? c)%N && (c <=? 90)%N then (c + 32)%N else c) s.

(** [cursors.some(r => r.from <= matchTo && r.to >= matchFrom)] *)
Definition cursorInside (cursors : list Range) (matchFrom matchTo : nat) : bool :=
  existsb (fun r => (from r <=? matchTo) && (matchFrom <=? to r)) cursors.

(** [nativeMathRanges.some(r => r.from < matchTo && r.to > matchFrom)] *)
Definition overlapsNative (native : list Range) (matchFrom matchTo : nat) : bool :=
  existsb (fun r => (from r <? matchTo) && (matchFrom <? to r)) native.

(** The TypeScript source [src/main.ts]. *)
Module MainTs.
Section LivePreview.
Context {H : Host}.

Definition nativeMathRanges (view : EditorView) : list Range :=
flat_map
(fun r =>
   map (fun node => mkRange (node_from node) (node_to node))
       (filter (fun node => includes (toLowerCase (name node)) (js "math"))
               (iterate view (from r) (to r))))
(visibleRanges view).

(** The body of the [while] loop; the state is [(builder, needsFinish)]. *)
Definition loop_body (native cursors : list Range) (from : nat) (m : Match)
       (st : RangeSetBuilder * bool) : M (RangeSetBuilder * bool) :=
let matchFrom := from + index m in
let matchTo := matchFrom + length (m0 m) in
let formula := trim (m1 m) in
if overlapsNative native matchFrom matchTo then ret st       (* continue *)
else if cursorInside cursors matchFrom matchTo then ret st   (* continue *)
else ret (fst st ++ [mkDecoration matchFrom matchTo (mkWidget formula)], true).

Definition buildDecorations (view : EditorView) : M DecorationSet :=
let cursors := selection_ranges view in
let native := nativeMathRanges view in
'(builder, needsFinish) <-
for_of (visibleRanges view)
  (fun r st =>
     let text := sliceString view (from r) (to r) in
     set_lastIndex 0 ;;
     while_exec (S (length text)) text (loop_body native cursors (from r)) st)
  ([], false) ;;
let decorations := builder in
(if needsFinish : bool then finishRenderMath else ret tt) ;;
ret decorations.
End LivePreview.
End MainTs.

(** The built artefact [main.js]: the same scanner without the native-math
  ranges. *)
Module MainJs.
Section LivePreview.
Context {H : Host}.

Definition loop_body (cursors : list Range) (from : nat) (m : Match)
       (st : RangeSetBuilder * bool) : M (RangeSetBuilder * bool) :=
let matchFrom := from + index m in
let matchTo := matchFrom + length (m0 m) in
let formula := trim (m1 m) in
if cursorInside cursors matchFrom matchTo then ret st        (* continue *)
else ret (fst st ++ [mkDecoration matchFrom matchTo (mkWidget formula)], true).

Definition buildDecorations (view : EditorView) : M DecorationSet :=
let cursors := selection_ranges view in
'(builder, needsFinish) <-
for_of (visibleRanges view)
  (fun r st =>
     let text := sliceString view (from r) (to r) in
     set_lastIndex 0 ;;
     while_exec (S (length text)) text (loop_body cursors (from r)) st)
  ([], false) ;;
let decorations := builder in
(if needsFinish : bool then finishRenderMath else ret tt) ;;
ret decorations.
End LivePreview.
End MainJs.

(** ** Reading View: the post-processor (the same in both files) *)

(** The [acceptNode] filter of the tree walker, on a text node with the tag
    and classes of its parent element; [true] is [FILTER_ACCEPT]. *)
Definition acceptNode (parentElement : option (JsString * list JsString))
           (textContent : JsString) : bool :=
  match parentElement with
  | None => false
  | Some (tag, cl) =>
      if str_eqb tag (js "CODE") || str_eqb tag (js "PRE")
         || str_eqb tag (js "MATH") || str_eqb tag (js "SCRIPT") then false
      else if contains cl (js "math") || contains cl (js "math-inline")
              || contains cl (js "math-block") then false
      else if negb (includes textContent (js "$")) then false
      else true
  end.

(** The walker's [nextNode()] sequence below a node: text nodes only, in
    document order, each filtered against its own parent. *)
Fixpoint walk (parent : JsString * list JsString) (n : Node) : list JsString :=
  match n with
  | TextNode t => if acceptNode (Some parent) t then [t] else []
  | ElementNode tag cl kids => flat_map (walk (tag, cl)) kids
  end.

(** What one call of [replaceTextNodeWithMath] did to its text node:
    [Some fragment] when [replaceChild(fragment, textNode)] ran. *)
Definition Edit := option (list Node).

(** The tree after the collected text nodes received their edits, in the
    order they were collected: children first to last, each consuming the
    edits of the text nodes below it. *)
Section SpliceList.
Variable splice_node : Node -> list Edit -> list Node * list Edit.

Fixpoint splice_list (ns : list Node) (es : list Edit)
  : list Node * list Edit :=
  match ns with
  | [] => ([], es)
  | k :: ns' =>
      let (k', es') := splice_node k es in
      let (ns'', es'') := splice_list ns' es' in
      (k' ++ ns'', es'')
  end.
End SpliceList.

Fixpoint splice (parent : JsString * list JsString) (n : Node)
         (edits : list Edit) : list Node * list Edit :=
  match n with
  | TextNode t =>
      if acceptNode (Some parent) t then
        match edits with
        | Some fragment :: rest => (fragment, rest)
        | None :: rest => ([n], rest)
        | [] => ([n], [])
        end
      else ([n], edits)
  | ElementNode tag cl kids =>
      let (kids', rest) := splice_list (splice (tag, cl)) kids edits in
      ([ElementNode tag cl kids'], rest)
  end.

(** The text nodes [processElement] collects below [element]. *)
Definition nodesToProcess (element : HTMLElement) : list JsString :=
  flat_map (walk (tagName element, classList element)) (childNodes element).

(** The children of [element] once the edits are in. *)
Definition spliced (element : HTMLElement) (edits : list Edit) : HTMLElement :=
  mkElement (tagName element) (classList element)
            (fst (splice_list (splice (tagName element, classList element))
                              (childNodes element) edits)).

Section ReadingView.
Context {H : Host}.

(** The loop state is [(fragment, lastIndex, didReplace)]. *)
Definition replace_body (text : JsString) (m : Match)
           (st : list Node * nat * bool) : M (list Node * nat * bool) :=
  let '(fragment, lastIdx, didReplace) := st in
  let fragment :=
    if lastIdx <? index m
    then fragment ++ [TextNode (slice text lastIdx (index m))]
    else fragment in
  let formula := trim (m1 m) in
  r <- renderMath formula false ;;
  match r with
  | Some mathEl =>
      let mathEl := classList_add mathEl (js "tolerant-math-inline") in
      ret (fragment ++ [node_of mathEl], index m + length (m0 m), true)
  | None =>
      ret (fragment ++ [TextNode (m0 m)], index m + length (m0 m), didReplace)
  end.

(** [textNode] is given by its text and by whether it has a parent node;
    the result is the returned boolean and the edit made. *)
Definition replaceTextNodeWithMath (textContent : JsString) (parentNode : bool)
  : M (bool * Edit) :=
  let text := textContent in
  set_lastIndex 0 ;;
  found <- test text ;;
  if negb found then ret (false, None)
  else
    set_lastIndex 0 ;;
    '(fragment, lastIdx, didReplace) <-
      while_exec (S (length text)) text (replace_body text) ([], 0, false) ;;
    let fragment :=
      if lastIdx <? length text
      then fragment ++ [TextNode (slice_from text lastIdx)]
      else fragment in
    if didReplace && parentNode
    then ret (didReplace, Some fragment)
    else ret (didReplace, None).

(** The body of the loop over [nodesToProcess]; the state is [didRender]
    and the edits made so far.  The nodes were collected from the tree, so
    each has a parent.  An edit replaces the very text node it was computed
    for and nothing the later iterations read, so the tree after the loop
    is the tree with all edits in ([spliced]). *)
Definition process_step (textNode : JsString) (st : bool * list Edit)
  : M (bool * list Edit) :=
  '(replaced, edit) <- replaceTextNodeWithMath textNode true ;;
  ret (if replaced : bool then true else fst st, snd st ++ [edit]).

Definition processElement (element : HTMLElement) : M HTMLElement :=
  '(didRender, edits) <-
    for_of (nodesToProcess element) process_step (false, []) ;;
  (if didRender : bool then finishRenderMath else ret tt) ;;
  ret (spliced element edits).
End ReadingView.

(** ** Live Preview: the view plugin (the same in both files)

    The class handed to [ViewPlugin.fromClass]: its instance holds the
    decorations; [build] is the file's [buildDecorations]. *)

Record ViewUpdate := mkUpdate {
  docChanged : bool;
  viewportChanged : bool;
  selectionSet : bool;
  view : EditorView
}.

Section ViewPlugin.
Context {H : Host}.
Variable build : EditorView -> M DecorationSet.

(** [constructor(view)]: the decorations the instance starts with. *)
Definition plugin_constructor (view : EditorView) : M DecorationSet :=
  build view.

(** [update(update)] on an instance holding [decorations]: the decorations
    it holds afterwards. *)
Definition plugin_update (decorations : DecorationSet) (update : ViewUpdate)
  : M DecorationSet :=
  if docChanged update || viewportChanged update || selectionSet update
  then build (view update)
  else ret decorations.

(** The instance after its construction and a series of updates. *)
Definition plugin_run (view0 : EditorView) (updates : list ViewUpdate)
  : M DecorationSet :=
  decorations <- plugin_constructor view0 ;;
  for_of updates (fun update decorations => plugin_update decorations update)
         decorations.
End ViewPlugin.

(** * Vocabulary of the properties *)

(** A declarative reading of the regular expressions: [Sem r b w af c c']
    says that [r], started with [b] behind it (nearest first), can consume
    [w] and leave [af], turning capture [c] into [c'].  It forgets the
    order in which the engine tries its alternatives. *)
Inductive Sem : Regex.t -> list char -> JsString -> list char ->
                Capture -> Capture -> Prop :=
| SemOne a b c af cap :
    accepts a c = true -> Sem (One a) b [c] af cap cap
| SemPlus a b w af cap :
    w <> [] -> Forall (fun c => accepts a c = true) w ->
    Sem (Plus a) b w af cap cap
| SemPlusLazy a b w af cap :
    w <> [] -> Forall (fun c => accepts a c = true) w ->
    Sem (PlusLazy a) b w af cap cap
| SemGroup r b w af cap cap' :
    Sem r b w af cap cap' -> Sem (Group r) b w af cap (Some w)
| SemSeq r1 r2 b w1 w2 af cap c1 c2 :
    Sem r1 b w1 (w2 ++ af) cap c1 ->
    Sem r2 (rev w1 ++ b) w2 af c1 c2 ->
    Sem (Seq r1 r2) b (w1 ++ w2) af cap c2
| SemNotBehind a b af cap :
    (forall c b', b = c :: b' -> accepts a c = false) ->
    Sem (NotBehind a) b [] af cap cap
| SemNotAhead a b af cap :
    (forall c af', af = c :: af' -> accepts a c = false) ->
    Sem (NotAhead a) b [] af cap cap.

Definition is_hspace (c : char) : bool := accepts (Cls [SPACE; TAB]) c.
Definition is_body (c : char) : bool := accepts (NegCls [DOLLAR; NEWLINE]) c.

(** [m] is a match of the pattern in [text], no earlier than offset [lo]:
    a dollar, padding, a body free of dollars and newlines, padding, a
    dollar, with no dollar next to either delimiter. *)
Inductive tolerant (text : JsString) (lo : nat) (m : Match) : Prop :=
| mkTolerant (pre padL padR rest : JsString)
    (tol_text : text = pre ++ m0 m ++ rest)
    (tol_index : index m = length pre)
    (tol_lo : lo <= index m)
    (tol_m0 : m0 m = DOLLAR :: padL ++ m1 m ++ padR ++ [DOLLAR])
    (tol_padL_ne : padL <> [])
    (tol_padL_ok : Forall (fun c => is_hspace c = true) padL)
    (tol_body_ne : m1 m <> [])
    (tol_body_ok : Forall (fun c => is_body c = true) (m1 m))
    (tol_padR_ne : padR <> [])
    (tol_padR_ok : Forall (fun c => is_hspace c = true) padR)
    (tol_behind : forall c p, pre = p ++ [c] -> c <> DOLLAR)
    (tol_ahead : forall c r, rest = c :: r -> c <> DOLLAR).

(** The matches of a fresh scan: [scan bound text i] lists what successive
    searches find from offset [i] on, each resuming where the last match
    ended; [matchAll text] is the scan from the start, the reference the
    stateful loops are compared with. *)
Fixpoint scan (bound : nat) (text : JsString) (i : nat) : list Match :=
  match bound with
  | 0 => []
  | S n =>
      match search_from TOLERANT_MATH_REGEX text i with
      | Some m => m :: scan n text (match_end m)
      | None => []
      end
  end.

Definition matchAll (text : JsString) : list Match :=
  scan (S (length text)) text 0.

(** Matches come left to right, each starting where the last one ended or
    later. *)
Fixpoint chain (text : JsString) (lo : nat) (ms : list Match) : Prop :=
  match ms with
  | [] => True
  | m :: ms' => tolerant text lo m /\ chain text (match_end m) ms'
  end.

(** The decoration one match contributes: none when a native range or a
    cursor vetoes it. *)
Definition keep (native cursors : list Range) (from : nat) (m : Match)
  : list Decoration :=
  let matchFrom := from + index m in
  let matchTo := matchFrom + length (m0 m) in
  if overlapsNative native matchFrom matchTo then []
  else if cursorInside cursors matchFrom matchTo then []
  else [mkDecoration matchFrom matchTo (mkWidget (trim (m1 m)))].

(** The decorations of one visible range, and of all of them, as a fresh
    scan of each range would give them. *)
Definition decorations_in (native cursors : list Range) (view : EditorView)
           (r : Range) : list Decoration :=
  flat_map (keep native cursors (from r))
           (matchAll (sliceString view (from r) (to r))).

Definition decorations_of (native cursors : list Range) (view : EditorView)
  : list Decoration :=
  flat_map (decorations_in native cursors view) (visibleRanges view).

Definition nonempty {A} (l : list A) : bool :=
  match l with [] => false | _ => true end.

(** The view with a syntax tree that reports nothing. *)
Definition without_tree (view : EditorView) : EditorView :=
  mkView (doc view) (selection_ranges view) (visibleRanges view) (fun _ _ => []).

Definition returned (r : option HTMLElement) : bool :=
  match r with Some _ => true | None => false end.

(** What goes into the fragment for one match, given what [renderMath]
    answered: the element, or a text node with the raw match. *)
Definition unit_of (m : Match) (r : option HTMLElement) : Node :=
  match r with
  | Some mathEl => node_of (classList_add mathEl (js "tolerant-math-inline"))
  | None => TextNode (m0 m)
  end.

(** The plain text between the previous match and this one. *)
Definition gap (text : JsString) (lastIdx : nat) (m : Match) : list Node :=
  if lastIdx <? index m then [TextNode (slice text lastIdx (index m))] else [].

Fixpoint assemble (text : JsString) (lastIdx : nat)
         (ps : list (Match * option HTMLElement)) : list Node :=
  match ps with
  | [] => []
  | (m, r) :: ps' =>
      gap text lastIdx m ++ unit_of m r :: assemble text (match_end m) ps'
  end.

Definition end_of (lastIdx : nat) (ps : list (Match * option HTMLElement)) : nat :=
  fold_left (fun _ p => match_end (fst p)) ps lastIdx.

(** The text after the last match. *)
Definition tail_of (text : JsString) (lastIdx : nat) : list Node :=
  if lastIdx <? length text then [TextNode (slice_from text lastIdx)] else [].

Definition call_of (p : Match * option HTMLElement) : Call :=
  RenderMath (trim (m1 (fst p))) false (returned (snd p)).

Definition any_returned (ps : list (Match * option HTMLElement)) : bool :=
  existsb (fun p => returned (snd p)) ps.

(** The edit a text node receives, given the answers to its render calls. *)
Definition edit_of (lp : JsString * list (Match * option HTMLElement)) : Edit :=
  let (text, ps) := lp in
  if any_returned ps
  then Some (assemble text 0 ps ++ tail_of text (end_of 0 ps))
  else None.

Definition calls_of (lps : list (JsString * list (Match * option HTMLElement)))
  : list Call :=
  flat_map (fun lp => map call_of (snd lp)) lps.

(** A dollar, a space or tab, anything, a space or tab, a dollar. *)
Definition padded (s : JsString) : Prop :=
  exists c1 mid c2,
    s = [DOLLAR; c1] ++ mid ++ [c2; DOLLAR] /\
    (c1 = SPACE \/ c1 = TAB) /\ (c2 = SPACE \/ c2 = TAB).

(** A dollar at each end and none in between. *)
Definition one_formula (s : JsString) : Prop :=
  exists inner,
    s = DOLLAR :: inner ++ [DOLLAR] /\ Forall (fun c => c <> DOLLAR) inner.

(** Spans that follow one another without overlap, from [lo] on. *)
Fixpoint separate (lo : nat) (ms : list Match) : Prop :=
  match ms with
  | [] => True
  | m :: ms' =>
      lo <= index m /\ index m < match_end m /\ separate (match_end m) ms'
  end.

(** Visible ranges as the editor hands them over: each one well formed,
    in order, none overlapping the next. *)
Fixpoint ordered (lo : nat) (rs : list Range) : Prop :=
  match rs with
  | [] => True
  | r :: rs' => lo <= from r /\ from r <= to r /\ ordered (to r) rs'
  end.

(** Decorations that follow one another between [lo] and [hi]. *)
Fixpoint dchain (lo : nat) (ds : list Decoration) (hi : nat) : Prop :=
  match ds with
  | [] => lo <= hi
  | d :: ds' =>
      lo <= deco_from d /\ deco_from d < deco_to d /\ dchain (deco_to d) ds' hi
  end.

(** Strictly ascending starts, and every decoration ends before any later
    one begins. *)
Definition ascending (ds : list Decoration) : Prop :=
  StronglySorted
    (fun a b => deco_from a < deco_from b /\ deco_to a <= deco_from b) ds.

(** A host for the examples: it refuses every source that includes
    [\oops], counts the elements it queued, and empties the queue on
    [finishRenderMath]. *)
Definition toyHost : Host :=
  {| MathJax := nat;
     host_renderMath source display queued :=
       if includes source (js "\oops") then (None, queued)
       else (Some (mkElement (js "SPAN") [js "math"] [TextNode source]),
             S queued);
     host_finishRenderMath queued := 0 |}.

Definition toyWorld : @World toyHost := @mkWorld toyHost 7 0 [].

(** The text node the code makes of a stretch of plain text: none when the
    stretch is empty. *)
Definition text_node (s : JsString) : list Node :=
  match s with [] => [] | _ => [TextNode s] end.

(** The view with another selection. *)
Definition with_selection (view : EditorView) (cursors : list Range) : EditorView :=
  mkView (doc view) cursors (visibleRanges view) (iterate view).

(** Reading a fragment back as text: a text node reads as its text, an
    element as the next of the given raw texts. *)
Fixpoint unrender (fragment : list Node) (raws : list JsString) : JsString :=
  match fragment with
  | [] => []
  | TextNode s :: f => s ++ unrender f raws
  | ElementNode _ _ _ :: f =>
      match raws with
      | raw :: raws' => raw ++ unrender f raws'
      | [] => unrender f []
      end
  end.

(** The raw texts of the matches whose render call returned. *)
Definition rendered_raws (ps : list (Match * option HTMLElement)) : list JsString :=
  map (fun p => m0 (fst p)) (filter (fun p => returned (snd p)) ps).

(** A source fit for the renderer: no dollar, no newline, no white space at
    either end. *)
Definition clean (s : JsString) : Prop :=
  ~ In DOLLAR s /\ ~ In NEWLINE s /\
  (forall c t, s = c :: t -> is_js_whitespace c = false) /\
  (forall p c, s = p ++ [c] -> is_js_whitespace c = false).

(** No text node at or below [n] holds a dollar. *)
Fixpoint dollar_free (n : Node) : bool :=
  match n with
  | TextNode t => negb (includes t (js "$"))
  | ElementNode _ _ kids => forallb dollar_free kids
  end.

(** The view of the last update that asked for a rebuild. *)
Definition latest_view (view0 : EditorView) (updates : list ViewUpdate)
  : EditorView :=
  fold_left (fun v u => if docChanged u || viewportChanged u || selectionSet u
                        then view u else v) updates view0.

(** A decoration over a spaced formula of the document, inside a visible
    range. *)
Definition spans_formula (view : EditorView) (d : Decoration) : Prop :=
  (exists r, In r (visibleRanges view) /\
             from r <= deco_from d /\ deco_to d <= to r) /\
  deco_to d <= length (doc view) /\
  exists padL body padR,
    slice (doc view) (deco_from d) (deco_to d) =
    DOLLAR :: padL ++ body ++ padR ++ [DOLLAR] /\
    padL <> [] /\ Forall (fun c => c = SPACE \/ c = TAB) padL /\
    body <> [] /\ Forall (fun c => c <> DOLLAR /\ c <> NEWLINE) body /\
    padR <> [] /\ Forall (fun c => c = SPACE \/ c = TAB) padR /\
    formula (widget d) = trim body.

Definition is_element (n : Node) : bool :=
  match n with ElementNode _ _ _ => true | TextNode _ => false end.

(** Edits that change nothing. *)
Definition all_none (es : list Edit) : Prop := Forall (fun e => e = None) es.

(** The three parts between the dollars of a spaced formula, split the way
    the pattern splits them: both paddings non-empty runs of spaces and
    tabs, the body non-empty, free of dollar and newline, and with a code
    unit other than space and tab at either end. *)
Definition spaced (padL body padR : JsString) : Prop :=
  padL <> [] /\ Forall (fun c => c = SPACE \/ c = TAB) padL /\
  body <> [] /\ Forall (fun c => c <> DOLLAR /\ c <> NEWLINE) body /\
  (forall c s, body = c :: s -> c <> SPACE /\ c <> TAB) /\
  (forall p c, body = p ++ [c] -> c <> SPACE /\ c <> TAB) /\
  padR <> [] /\ Forall (fun c => c = SPACE \/ c = TAB) padR.

(** The formula with its dollars. *)
Definition dollars (padL body padR : JsString) : JsString :=
  DOLLAR :: padL ++ body ++ padR ++ [DOLLAR].

(** An earlier use of the shared regular expression: a single [exec] or
    [test], or a whole run of one of the scanners. *)
Inductive Use :=
| UseExec (text : JsString)
| UseTest (text : JsString)
| UseReplace (textContent : JsString) (parentNode : bool)
| UseProcess (element : HTMLElement)
| UseRebuildJs (view : EditorView)
| UseRebuildTs (view : EditorView).

Section HostVocabulary.
Context {H : Host}.

Definition use (u : Use) : M unit :=
  match u with
  | UseExec text => exec text ;; ret tt
  | UseTest text => test text ;; ret tt
  | UseReplace textContent parentNode =>
      replaceTextNodeWithMath textContent parentNode ;; ret tt
  | UseProcess element => processElement element ;; ret tt
  | UseRebuildJs view => MainJs.buildDecorations view ;; ret tt
  | UseRebuildTs view => MainTs.buildDecorations view ;; ret tt
  end.

(** Earlier uses, one after the other, oldest first. *)
Definition uses (earlier : list Use) : M unit :=
  for_of earlier (fun u _ => use u) tt.

(** A computation that neither reads nor writes [lastIndex]. *)
Definition frames {A} (c : M A) : Prop :=
  forall i mj cs,
    c (mkWorld i mj cs) =
    match c (mkWorld 0 mj cs) with
    | Some (a, w') => Some (a, mkWorld i (mathjax w') (calls w'))
    | None => None
    end.

(** What a rebuild returns and what it does to the world. *)
Definition after_rebuild (ds : list Decoration) (rs : list Range) (w : World)
  : World :=
  mkWorld (match rs with [] => lastIndex w | _ => 0 end)
          (if nonempty ds then host_finishRenderMath (mathjax w) else mathjax w)
          (calls w ++ if nonempty ds then [FinishRenderMath] else []).

(** What the host answers to the render calls for [ms], one after the
    other, and the state it is left in. *)
Fixpoint outcomes (ms : list Match) (mj : MathJax)
  : list (Match * option HTMLElement) * MathJax :=
  match ms with
  | [] => ([], mj)
  | m :: ms' =>
      let (r, mj') := host_renderMath (trim (m1 m)) false mj in
      let (ps, mj'') := outcomes ms' mj' in
      ((m, r) :: ps, mj'')
  end.

(** The host's answers along the collected text nodes, in order. *)
Fixpoint leaves (ts : list JsString) (mj : MathJax)
  : list (JsString * list (Match * option HTMLElement)) * MathJax :=
  match ts with
  | [] => ([], mj)
  | t :: ts' =>
      let (ps, mj') := outcomes (matchAll t) mj in
      let (lps, mj'') := leaves ts' mj' in
      ((t, ps) :: lps, mj'')
  end.
End HostVocabulary.

(** * Properties *)

(** ** Soundness of the engine: what a successful match looks like *)

Section EngineSound.
Variable R : Type.

Lemma star_greedy_sound a (k : Cont R) cap res :
  forall af b,
    star_greedy a b af cap k = Some res ->
    exists w af',
      af = w ++ af' /\ Forall (fun c => accepts a c = true) w /\
      k (mkPos (rev w ++ b) af') cap = Some res.
Proof.
  induction af as [|c af IH]; intros b Hrun; simpl in Hrun.
  - exists [], []. auto.
  - destruct (accepts a c) eqn:Hc.
    + destruct (star_greedy a (c :: b) af cap k) eqn:Hrec.
      * injection Hrun as <-.
        destruct (IH _ Hrec) as (w & af' & -> & Hall & Hk).
        exists (c :: w), af'. repeat split; auto.
        simpl. now rewrite <- app_assoc.
      * exists [], (c :: af). auto.
    + exists [], (c :: af). auto.
Qed.

Lemma star_lazy_sound a (k : Cont R) cap res :
  forall af b,
    star_lazy a b af cap k = Some res ->
    exists w af',
      af = w ++ af' /\ Forall (fun c => accepts a c = true) w /\
      k (mkPos (rev w ++ b) af') cap = Some res.
Proof.
  induction af as [|c af IH]; intros b Hrun; simpl in Hrun.
  - destruct (k (mkPos b []) cap) eqn:Hk; [|discriminate].
    exists [], []. injection Hrun as <-. auto.
  - destruct (k (mkPos b (c :: af)) cap) eqn:Hk.
    + injection Hrun as <-. exists [], (c :: af). auto.
    + destruct (accepts a c) eqn:Hc; [|discriminate].
      destruct (IH _ Hrun) as (w & af' & -> & Hall & Hk').
      exists (c :: w), af'. repeat split; auto.
      simpl. now rewrite <- app_assoc.
Qed.
End EngineSound.

Lemma between_app b af w af' :
  between (mkPos b af) (mkPos (rev w ++ b) af') = w.
Proof.
  unfold between, index_of; simpl.
  rewrite length_app, length_rev.
  replace (length w + length b - length b) with (length (rev w))
    by (rewrite length_rev; lia).
  rewrite firstn_app, firstn_all, Nat.sub_diag. simpl.
  now rewrite app_nil_r, rev_involutive.
Qed.

(** Whatever the engine accepts, the declarative reading accepts. *)
Lemma run_sound (R : Type) r :
  forall b af cap (k : Cont R) res,
    run r (mkPos b af) cap k = Some res ->
    exists w af' cap',
      af = w ++ af' /\ Sem r b w af' cap cap' /\
      k (mkPos (rev w ++ b) af') cap' = Some res.
Proof.
  induction r as [a|a|a|r IH|r1 IH1 r2 IH2|a|a]; intros b af cap k res Hrun;
    simpl in Hrun.
  - destruct af as [|c af]; [discriminate|].
    destruct (accepts a c) eqn:Hc; [|discriminate].
    exists [c], af, cap. repeat split; auto. now constructor.
  - destruct af as [|c af]; [discriminate|].
    destruct (accepts a c) eqn:Hc; [|discriminate].
    destruct (star_greedy_sound _ _ _ _ _ Hrun) as (w & af' & -> & Hall & Hk).
    exists (c :: w), af', cap. repeat split; auto.
    + constructor; [discriminate | now constructor].
    + simpl. now rewrite <- app_assoc.
  - destruct af as [|c af]; [discriminate|].
    destruct (accepts a c) eqn:Hc; [|discriminate].
    destruct (star_lazy_sound _ _ _ _ _ Hrun) as (w & af' & -> & Hall & Hk).
    exists (c :: w), af', cap. repeat split; auto.
    + constructor; [discriminate | now constructor].
    + simpl. now rewrite <- app_assoc.
  - destruct (IH _ _ _ _ _ Hrun) as (w & af' & cap' & -> & Hsem & Hk).
    rewrite between_app in Hk.
    exists w, af', (Some w). repeat split; auto. econstructor; eauto.
  - destruct (IH1 _ _ _ _ _ Hrun) as (w1 & af1 & c1 & -> & Hsem1 & Hk1).
    destruct (IH2 _ _ _ _ _ Hk1) as (w2 & af2 & c2 & -> & Hsem2 & Hk2).
    exists (w1 ++ w2), af2, c2. repeat split.
    + now rewrite app_assoc.
    + econstructor; eauto.
    + now rewrite rev_app_distr, <- app_assoc.
  - exists [], af, cap. repeat split; auto.
    + constructor. intros c b' ->. simpl in Hrun.
      destruct (accepts a c); [discriminate | reflexivity].
    + destruct b as [|c b]; auto. destruct (accepts a c); [discriminate | auto].
  - exists [], af, cap. repeat split; auto.
    + constructor. intros c af' ->. simpl in Hrun.
      destruct (accepts a c); [discriminate | reflexivity].
    + destruct af as [|c af]; auto. destruct (accepts a c); [discriminate | auto].
Qed.

(** ** The shape of a tolerant match *)

Lemma char_eqb_eq a b : char_eqb a b = true <-> a = b.
Proof. apply N.eqb_eq. Qed.

Lemma accepts_dollar c : accepts (Chr DOLLAR) c = true <-> c = DOLLAR.
Proof. apply char_eqb_eq. Qed.

Lemma tolerant_sem b w af cap :
  Sem TOLERANT_MATH_REGEX b w af None cap ->
  exists padL body padR,
    w = DOLLAR :: padL ++ body ++ padR ++ [DOLLAR] /\ cap = Some body /\
    padL <> [] /\ Forall (fun c => is_hspace c = true) padL /\
    body <> [] /\ Forall (fun c => is_body c = true) body /\
    padR <> [] /\ Forall (fun c => is_hspace c = true) padR /\
    (forall c b', b = c :: b' -> c <> DOLLAR) /\
    (forall c af', af = c :: af' -> c <> DOLLAR).
Proof.
  unfold TOLERANT_MATH_REGEX. intros H.
  repeat match goal with
         | S : Sem (Seq _ _) _ _ _ _ _ |- _ => inversion S; subst; clear S
         end.
  repeat match goal with
         | S : Sem (Group _) _ _ _ _ _ |- _ => inversion S; subst; clear S
         | S : Sem (One _) _ _ _ _ _ |- _ => inversion S; subst; clear S
         | S : Sem (Plus _) _ _ _ _ _ |- _ => inversion S; subst; clear S
         | S : Sem (PlusLazy _) _ _ _ _ _ |- _ => inversion S; subst; clear S
         | S : Sem (NotBehind _) _ _ _ _ _ |- _ => inversion S; subst; clear S
         | S : Sem (NotAhead _) _ _ _ _ _ |- _ => inversion S; subst; clear S
         end.
  repeat match goal with
         | A : accepts (Chr DOLLAR) _ = true |- _ =>
             apply accepts_dollar in A; subst
         end.
  match goal with
  | |- exists _ _ _, [] ++ [DOLLAR] ++ ?l ++ ?bd ++ ?r ++ _ = _ /\ _ =>
      exists l, bd, r
  end.
  simpl. repeat split; auto.
  - intros c b' -> Hc. subst c.
    match goal with
    | Hb : forall c b0, DOLLAR :: b' = c :: b0 -> _ |- _ =>
        specialize (Hb _ _ eq_refl); discriminate
    end.
  - intros c af' -> Hc. subst c.
    match goal with
    | Ha : forall c af0, DOLLAR :: af' = c :: af0 -> _ |- _ =>
        specialize (Ha _ _ eq_refl); discriminate
    end.
Qed.

Lemma search_sound :
  forall af b m,
    search TOLERANT_MATH_REGEX b af = Some m ->
    tolerant (rev b ++ af) (length b) m.
Proof.
  induction af as [|c af IH]; intros b m Hs; simpl in Hs.
  - exfalso. unfold match_at in Hs.
    destruct (run TOLERANT_MATH_REGEX (mkPos b []) None
                  (fun q cap => Some (q, cap))) as [[q cap]|] eqn:Hrun;
      [|discriminate].
    apply run_sound in Hrun.
    destruct Hrun as (w & af' & cap' & Haf & Hsem & _).
    apply tolerant_sem in Hsem. destruct Hsem as (l & bd & r & -> & _).
    discriminate.
  - unfold match_at in Hs.
    destruct (run TOLERANT_MATH_REGEX (mkPos b (c :: af)) None
                  (fun q cap => Some (q, cap))) as [[q cap]|] eqn:Hrun.
    + injection Hs as <-.
      apply run_sound in Hrun.
      destruct Hrun as (w & af' & cap' & Haf & Hsem & Hk).
      injection Hk as <- <-.
      apply tolerant_sem in Hsem.
      destruct Hsem as (l & bd & r & Hw & -> & Hl & Hlo & Hb & Hbo & Hr & Hro & Hbeh & Hah).
      rewrite between_app. simpl.
      apply (@mkTolerant _ _ _ (rev b) l r af'); simpl; auto.
      * now rewrite Haf.
      * now rewrite length_rev.
      * intros x p Hp. apply (f_equal (@rev _)) in Hp.
        rewrite rev_involutive, rev_app_distr in Hp. simpl in Hp.
        eapply Hbeh; eauto.
    + specialize (IH (c :: b) m Hs). simpl in IH.
      rewrite <- app_assoc in IH. simpl in IH.
      destruct IH as [pre l r rest Ht Hi Hlo]. 
      apply (@mkTolerant _ _ _ pre l r rest); auto.
      simpl in Hlo. lia.
Qed.

Lemma search_from_sound text i m :
  i <= length text ->
  search_from TOLERANT_MATH_REGEX text i = Some m -> tolerant text i m.
Proof.
  unfold search_from. intros Hi Hs. apply search_sound in Hs.
  rewrite rev_involutive, firstn_skipn, length_rev in Hs.
  now rewrite length_firstn, Nat.min_l in Hs.
Qed.

Lemma tolerant_bounds text lo m :
  tolerant text lo m ->
  lo <= index m /\ index m + 5 <= match_end m /\ match_end m <= length text.
Proof.
  intros [pre l r rest Ht Hi Hlo Hm0 Hl _ Hb _ Hr _ _ _].
  unfold match_end. rewrite Ht, !length_app, Hm0. simpl.
  rewrite !length_app. simpl.
  destruct l; [congruence|]. destruct r; [congruence|].
  destruct (m1 m); [congruence|]. simpl. lia.
Qed.

Lemma tolerant_slice text lo m :
  tolerant text lo m -> m0 m = slice text (index m) (match_end m).
Proof.
  intros [pre l r rest Ht Hi _ _ _ _ _ _ _ _ _ _].
  unfold slice, match_end. subst text. rewrite Hi.
  rewrite skipn_app, skipn_all, Nat.sub_diag. simpl.
  replace (length pre + length (m0 m) - length pre) with (length (m0 m)) by lia.
  now rewrite firstn_app, firstn_all, Nat.sub_diag, firstn_O, app_nil_r.
Qed.

Lemma tolerant_weaken text lo lo' m :
  lo' <= lo -> tolerant text lo m -> tolerant text lo' m.
Proof.
  intros Hle [pre l r rest]. apply (@mkTolerant _ _ _ pre l r rest); auto. lia.
Qed.

(** ** The matches of a fresh scan *)

Lemma scan_chain text :
  forall bound i, i <= length text -> chain text i (scan bound text i).
Proof.
  induction bound as [|n IH]; intros i Hi; simpl; auto.
  destruct (search_from TOLERANT_MATH_REGEX text i) as [m|] eqn:Hs; simpl; auto.
  pose proof (search_from_sound _ Hi Hs) as Ht.
  split; auto. apply IH. apply tolerant_bounds in Ht. lia.
Qed.

Lemma matchAll_chain text : chain text 0 (matchAll text).
Proof. apply scan_chain. lia. Qed.

Lemma chain_In text :
  forall ms lo m, chain text lo ms -> In m ms -> tolerant text lo m.
Proof.
  induction ms as [|x ms IH]; intros lo m Hc Hin; [contradiction|].
  destruct Hc as [Hx Hc]. destruct Hin as [<-|Hin]; auto.
  apply tolerant_weaken with (lo := match_end x); eauto.
  apply tolerant_bounds in Hx. lia.
Qed.

(** ** The loops against the fresh scan *)

Section Frames.
Context {H : Host}.

Lemma bind_Some A B (c : M A) (f : A -> M B) w a w' :
  c w = Some (a, w') -> bind c f w = f a w'.
Proof. intros Hc. unfold bind. now rewrite Hc. Qed.

Lemma frames_ret A (a : A) : frames (ret a).
Proof. intros i mj cs. reflexivity. Qed.

Lemma frames_bind A B (c : M A) (f : A -> M B) :
  frames c -> (forall a, frames (f a)) -> frames (bind c f).
Proof.
  intros Hc Hf i mj cs. unfold bind. rewrite Hc.
  destruct (c (mkWorld 0 mj cs)) as [[a [j mj' cs']]|]; simpl; auto.
  rewrite (Hf a i), (Hf a j).
  destruct (f a (mkWorld 0 mj' cs')) as [[b w'']|]; auto.
Qed.

Lemma frames_renderMath source display : frames (renderMath source display).
Proof.
  intros i mj cs. unfold renderMath. simpl.
  destruct (host_renderMath source display mj); reflexivity.
Qed.

Lemma frames_finishRenderMath : frames finishRenderMath.
Proof. intros i mj cs. reflexivity. Qed.

Lemma frames_zero A (c : M A) mj cs a w' :
  frames c -> c (mkWorld 0 mj cs) = Some (a, w') -> lastIndex w' = 0.
Proof.
  intros Hc Hr. specialize (Hc 0 mj cs). rewrite Hr in Hc.
  injection Hc as Hc. rewrite Hc at 1. reflexivity.
Qed.

Lemma frames_for_of A S (xs : list A) (body : A -> S -> M S) :
  (forall x s, frames (body x s)) -> forall s, frames (for_of xs body s).
Proof.
  intros Hb. induction xs as [|x xs IH]; intros s; simpl.
  - apply frames_ret.
  - apply frames_bind; auto.
Qed.

(** The [while] loop, entered at offset [i], runs its body on the matches
    of the scan from [i], and never runs out of its bound. *)
Lemma while_exec_scan S (text : JsString) (body : Match -> S -> M S) :
  (forall m s, frames (body m s)) ->
  forall bound i s mj cs,
    i <= length text -> length text - i < bound ->
    while_exec bound text body s (mkWorld i mj cs) =
    for_of (scan bound text i) body s (mkWorld 0 mj cs).
Proof.
  intros Hb. induction bound as [|n IH]; intros i s mj cs Hi Hn; [lia|].
  simpl. unfold bind at 1. unfold exec. simpl.
  destruct (Nat.ltb_spec (length text) i) as [Hlt|_]; [lia|].
  destruct (search_from TOLERANT_MATH_REGEX text i) as [m|] eqn:Hs; simpl; auto.
  pose proof (tolerant_bounds (search_from_sound _ Hi Hs)) as (H1 & H2 & H3).
  unfold bind. rewrite (Hb m s (match_end m)).
  destruct (body m s (mkWorld 0 mj cs)) as [[s' w']|] eqn:Hbody; auto.
  rewrite IH by lia.
  assert (Hz : lastIndex w' = 0)
    by (eapply frames_zero; [apply Hb | exact Hbody]).
  destruct w' as [j mj' cs']. simpl in *. now subst j.
Qed.

(** After the reset, whatever [lastIndex] was before. *)
Lemma reset_while_exec S (text : JsString) (body : Match -> S -> M S) :
  (forall m s, frames (body m s)) ->
  forall s i mj cs,
    (set_lastIndex 0 ;; while_exec (Datatypes.S (length text)) text body s)
      (mkWorld i mj cs) =
    for_of (matchAll text) body s (mkWorld 0 mj cs).
Proof.
  intros Hb s i mj cs. unfold bind at 1. unfold set_lastIndex. simpl mathjax.
  simpl calls. cbv iota beta. apply while_exec_scan; auto; lia.
Qed.
End Frames.

(** ** Live Preview against the fresh scan *)

Lemma nonempty_app A (l1 l2 : list A) :
  nonempty (l1 ++ l2) = nonempty l1 || nonempty l2.
Proof. destruct l1; reflexivity. Qed.

Section LivePreviewSpec.
Context {H : Host}.

Lemma ts_loop_body_keep native cursors from m st :
  MainTs.loop_body native cursors from m st =
  ret (fst st ++ keep native cursors from m,
       snd st || nonempty (keep native cursors from m)).
Proof.
  unfold MainTs.loop_body, keep. destruct st as [b nf]. simpl.
  destruct (overlapsNative _ _ _); simpl.
  - now rewrite app_nil_r, orb_false_r.
  - destruct (cursorInside _ _ _); simpl.
    + now rewrite app_nil_r, orb_false_r.
    + now rewrite orb_true_r.
Qed.

Lemma js_loop_body_ts cursors from m st :
  MainJs.loop_body cursors from m st = MainTs.loop_body [] cursors from m st.
Proof. reflexivity. Qed.

Lemma frames_ts_loop_body native cursors from m st :
  frames (MainTs.loop_body native cursors from m st).
Proof. rewrite ts_loop_body_keep. apply frames_ret. Qed.

Lemma for_of_keep native cursors from :
  forall ms st w,
    for_of ms (MainTs.loop_body native cursors from) st w =
    Some ((fst st ++ flat_map (keep native cursors from) ms,
           snd st || nonempty (flat_map (keep native cursors from) ms)), w).
Proof.
  induction ms as [|m ms IH]; intros [b nf] w; simpl.
  - now rewrite app_nil_r, orb_false_r.
  - unfold bind. rewrite ts_loop_body_keep. unfold ret at 1. rewrite IH. simpl.
    now rewrite <- app_assoc, nonempty_app, orb_assoc.
Qed.

(** One visible range: reset, scan, decorate. *)
Lemma ts_range_step native cursors view r st i mj cs :
  (set_lastIndex 0 ;;
   while_exec (S (length (sliceString view (from r) (to r))))
              (sliceString view (from r) (to r))
              (MainTs.loop_body native cursors (from r)) st)
    (mkWorld i mj cs) =
  Some ((fst st ++ decorations_in native cursors view r,
         snd st || nonempty (decorations_in native cursors view r)),
        mkWorld 0 mj cs).
Proof.
  rewrite reset_while_exec by (intros; apply frames_ts_loop_body).
  apply for_of_keep.
Qed.

Lemma ts_ranges native cursors view :
  forall rs st i mj cs,
    for_of rs
      (fun r st =>
         set_lastIndex 0 ;;
         while_exec (S (length (sliceString view (from r) (to r))))
                    (sliceString view (from r) (to r))
                    (MainTs.loop_body native cursors (from r)) st)
      st (mkWorld i mj cs) =
    Some ((fst st ++ flat_map (decorations_in native cursors view) rs,
           snd st || nonempty (flat_map (decorations_in native cursors view) rs)),
          mkWorld (match rs with [] => i | _ => 0 end) mj cs).
Proof.
  induction rs as [|r rs IH]; intros [b nf] i mj cs; cbn [for_of].
  - unfold ret. simpl. now rewrite app_nil_r, orb_false_r.
  - erewrite bind_Some by apply ts_range_step. rewrite IH. simpl.
    rewrite <- app_assoc, nonempty_app, orb_assoc.
    destruct rs; reflexivity.
Qed.

Lemma ts_buildDecorations_spec view w :
  MainTs.buildDecorations view w =
  let ds := decorations_of (MainTs.nativeMathRanges view)
                           (selection_ranges view) view in
  Some (ds, after_rebuild ds (visibleRanges view) w).
Proof.
  destruct w as [i mj cs]. unfold MainTs.buildDecorations.
  erewrite bind_Some by apply ts_ranges. simpl fst. simpl snd.
  fold (decorations_of (MainTs.nativeMathRanges view)
                       (selection_ranges view) view).
  unfold after_rebuild. simpl.
  destruct (nonempty (decorations_of _ _ view)); simpl.
  - reflexivity.
  - now rewrite app_nil_r.
Qed.

Lemma js_buildDecorations_spec view w :
  MainJs.buildDecorations view w =
  let ds := decorations_of [] (selection_ranges view) view in
  Some (ds, after_rebuild ds (visibleRanges view) w).
Proof.
  destruct w as [i mj cs]. unfold MainJs.buildDecorations.
  change (MainJs.loop_body (selection_ranges view))
    with (MainTs.loop_body [] (selection_ranges view)).
  erewrite bind_Some by apply ts_ranges. simpl fst. simpl snd.
  fold (decorations_of [] (selection_ranges view) view).
  unfold after_rebuild. simpl.
  destruct (nonempty (decorations_of _ _ view)); simpl.
  - reflexivity.
  - now rewrite app_nil_r.
Qed.

Lemma nativeMathRanges_without_tree view :
  MainTs.nativeMathRanges (without_tree view) = [].
Proof.
  unfold MainTs.nativeMathRanges. simpl.
  induction (visibleRanges view); simpl; auto.
Qed.

(** The built artefact is the source run on a view without a syntax
    tree. *)
Lemma js_is_ts_without_tree view w :
  MainJs.buildDecorations view w = MainTs.buildDecorations (without_tree view) w.
Proof.
  rewrite js_buildDecorations_spec, ts_buildDecorations_spec.
  rewrite nativeMathRanges_without_tree. reflexivity.
Qed.

Lemma for_of_collect (ms : list Match) :
  forall acc w,
    for_of ms (fun m acc => ret (acc ++ [m])) acc w = Some (acc ++ ms, w).
Proof.
  induction ms as [|m ms IH]; intros acc w; cbn [for_of].
  - unfold ret. now rewrite app_nil_r.
  - erewrite bind_Some by reflexivity. rewrite IH. now rewrite <- app_assoc.
Qed.

Lemma scanAll_spec text w :
  scanAll text w = Some (matchAll text, mkWorld 0 (mathjax w) (calls w)).
Proof.
  destruct w as [i mj cs]. unfold scanAll.
  rewrite reset_while_exec by (intros; apply frames_ret).
  apply for_of_collect.
Qed.
End LivePreviewSpec.

(** ** Reading View against the fresh scan *)

Section ReadingViewSpec.
Context {H : Host}.

Lemma outcomes_fst ms : forall mj, map fst (fst (outcomes ms mj)) = ms.
Proof.
  induction ms as [|m ms IH]; intros mj; simpl; auto.
  destruct (host_renderMath _ _ mj) as [r mj'].
  specialize (IH mj'). destruct (outcomes ms mj') as [ps mj'']. simpl in *.
  now rewrite IH.
Qed.

Lemma frames_replace_body text m st : frames (replace_body text m st).
Proof.
  destruct st as [[fragment lastIdx] didReplace]. unfold replace_body.
  apply frames_bind; [apply frames_renderMath|].
  intros [el|]; apply frames_ret.
Qed.

Lemma replace_loop_spec text :
  forall ms fragment lastIdx didReplace w,
    for_of ms (replace_body text) (fragment, lastIdx, didReplace) w =
    let (ps, mj') := outcomes ms (mathjax w) in
    Some ((fragment ++ assemble text lastIdx ps, end_of lastIdx ps,
           didReplace || existsb (fun p => returned (snd p)) ps),
          mkWorld (lastIndex w) mj' (calls w ++ map call_of ps)).
Proof.
  induction ms as [|m ms IH]; intros fragment lastIdx didReplace w;
    cbn [for_of outcomes].
  - unfold ret. destruct w. simpl. now rewrite !app_nil_r, orb_false_r.
  - unfold bind at 1. unfold replace_body at 1. unfold bind at 1.
    unfold renderMath at 1.
    destruct (host_renderMath (trim (m1 m)) false (mathjax w)) as [r mj'] eqn:Hr.
    destruct r as [mathEl|]; unfold ret at 1; rewrite IH; cbn [mathjax];
      destruct (outcomes ms mj') as [ps mj'']; cbn [lastIndex calls];
      unfold end_of; simpl; unfold gap, call_of, match_end; simpl;
      destruct (lastIdx <? index m); simpl;
      rewrite <- ?app_assoc, ?orb_true_r; simpl; reflexivity.
Qed.

Lemma first_match text :
  search_from TOLERANT_MATH_REGEX text 0 = hd_error (matchAll text).
Proof.
  unfold matchAll. simpl.
  destruct (search_from TOLERANT_MATH_REGEX text 0); reflexivity.
Qed.

(** One text node: what is returned, what is spliced, what is called. *)
Lemma replaceTextNodeWithMath_spec text parentNode w :
  replaceTextNodeWithMath text parentNode w =
  let (ps, mj') := outcomes (matchAll text) (mathjax w) in
  let didReplace := existsb (fun p => returned (snd p)) ps in
  let fragment := assemble text 0 ps ++ tail_of text (end_of 0 ps) in
  Some ((didReplace, if didReplace && parentNode then Some fragment else None),
        mkWorld 0 mj' (calls w ++ map call_of ps)).
Proof.
  destruct w as [i mj cs]. unfold replaceTextNodeWithMath.
  unfold bind at 1. unfold set_lastIndex at 1. cbn [mathjax calls].
  unfold bind at 1. unfold test. unfold bind at 1. unfold exec.
  cbn [lastIndex mathjax calls]. 
  replace (length text <? 0) with false by (symmetry; apply Nat.ltb_ge; lia).
  rewrite first_match.
  destruct (matchAll text) as [|m ms] eqn:Hms.
  - simpl. now rewrite app_nil_r.
  - cbn [hd_error ret negb].
    rewrite <- Hms.
    erewrite bind_Some by reflexivity.
    unfold bind at 1.
    rewrite while_exec_scan
      by (try (intros; apply frames_replace_body); simpl; lia).
    fold (matchAll text). rewrite replace_loop_spec.
    cbn [mathjax calls lastIndex].
    destruct (outcomes (matchAll text) mj) as [ps mj'].
    unfold tail_of. cbn [app].
    destruct (existsb (fun p => returned (snd p)) ps); cbn [orb andb];
      destruct parentNode; cbn [andb]; unfold ret;
      destruct (end_of 0 ps <? length text); rewrite ?app_nil_r; reflexivity.
Qed.
End ReadingViewSpec.

Section ProcessElementSpec.
Context {H : Host}.

Lemma leaves_fst ts : forall mj, map fst (fst (leaves ts mj)) = ts.
Proof.
  induction ts as [|t ts IH]; intros mj; simpl; auto.
  destruct (outcomes (matchAll t) mj) as [ps mj'].
  specialize (IH mj'). destruct (leaves ts mj') as [lps mj'']. simpl in *.
  now rewrite IH.
Qed.

Lemma leaves_matches ts :
  forall mj, Forall (fun lp => map fst (snd lp) = matchAll (fst lp))
                    (fst (leaves ts mj)).
Proof.
  induction ts as [|t ts IH]; intros mj; simpl; auto.
  pose proof (outcomes_fst (matchAll t) mj) as Ho.
  destruct (outcomes (matchAll t) mj) as [ps mj'].
  specialize (IH mj'). destruct (leaves ts mj') as [lps mj'']. simpl in *.
  constructor; auto.
Qed.

Lemma process_loop_spec :
  forall ts didRender edits w,
    for_of ts process_step (didRender, edits) w =
    let (lps, mj') := leaves ts (mathjax w) in
    Some ((didRender || existsb (fun lp => any_returned (snd lp)) lps,
           edits ++ map edit_of lps),
          mkWorld (match ts with [] => lastIndex w | _ => 0 end) mj'
                  (calls w ++ calls_of lps)).
Proof.
  induction ts as [|t ts IH]; intros didRender edits w; cbn [for_of leaves].
  - unfold ret. destruct w. simpl. now rewrite !app_nil_r, orb_false_r.
  - unfold bind at 1. unfold process_step at 1. unfold bind at 1.
    rewrite replaceTextNodeWithMath_spec.
    destruct (outcomes (matchAll t) (mathjax w)) as [ps mj'].
    cbv zeta. unfold ret at 1. rewrite IH. cbn [mathjax calls lastIndex].
    destruct (leaves ts mj') as [lps mj'']. cbn [fst snd].
    unfold calls_of. simpl. fold (any_returned ps).
    rewrite andb_true_r.
    replace (match ts with [] => 0 | _ :: _ => 0 end) with 0
      by (destruct ts; reflexivity).
    destruct (any_returned ps); simpl;
      rewrite <- ?app_assoc, ?orb_true_r; simpl; reflexivity.
Qed.

Lemma processElement_spec element w :
  processElement element w =
  let (lps, mj') := leaves (nodesToProcess element) (mathjax w) in
  let didRender := existsb (fun lp => any_returned (snd lp)) lps in
  Some (spliced element (map edit_of lps),
        mkWorld (match nodesToProcess element with [] => lastIndex w | _ => 0 end)
                (if didRender then host_finishRenderMath mj' else mj')
                (calls w ++ calls_of lps ++
                 if didRender then [FinishRenderMath] else [])).
Proof.
  unfold processElement. unfold bind at 1.
  rewrite process_loop_spec.
  destruct (leaves _ (mathjax w)) as [lps mj']. cbn [orb app].
  destruct (existsb (fun lp => any_returned (snd lp)) lps);
    unfold bind, finishRenderMath, ret; simpl;
    rewrite <- ?app_assoc, ?app_nil_r; reflexivity.
Qed.
End ProcessElementSpec.

(** ** [trim] *)

Lemma trimStart_nil s :
  trimStart s = [] <-> forallb is_js_whitespace s = true.
Proof.
  induction s as [|c s IH]; simpl; [tauto|].
  destruct (is_js_whitespace c); simpl; [exact IH|].
  split; discriminate.
Qed.

Lemma trimStart_keeps s :
  forallb is_js_whitespace (trimStart s) = true -> trimStart s = [].
Proof.
  induction s as [|c s IH]; simpl; auto.
  destruct (is_js_whitespace c) eqn:Hc; auto.
  simpl. rewrite Hc. discriminate.
Qed.

Lemma forallb_rev A (f : A -> bool) l : forallb f (rev l) = forallb f l.
Proof.
  induction l as [|x l IH]; simpl; auto.
  rewrite forallb_app, IH. simpl. rewrite andb_true_r. apply andb_comm.
Qed.

Lemma trim_nil s : trim s = [] <-> forallb is_js_whitespace s = true.
Proof.
  unfold trim, trimEnd. split.
  - intros Hr. apply (f_equal (@rev _)) in Hr. rewrite rev_involutive in Hr.
    simpl in Hr. apply trimStart_nil in Hr. rewrite forallb_rev in Hr.
    apply trimStart_keeps in Hr. now apply trimStart_nil.
  - intros Hs. apply trimStart_nil in Hs. rewrite Hs. reflexivity.
Qed.

Lemma forallb_false A (f : A -> bool) l :
  forallb f l = false <-> exists x, In x l /\ f x = false.
Proof.
  induction l as [|x l IH]; simpl.
  - split; [discriminate | intros (x & [] & _)].
  - destruct (f x) eqn:Hx; simpl.
    + rewrite IH. split.
      * intros (y & Hy & Hf). eauto.
      * intros (y & [<-|Hy] & Hf); [congruence | eauto].
    + split; auto. intros _. eauto.
Qed.

Lemma trim_nonempty s :
  trim s <> [] <-> exists c, In c s /\ is_js_whitespace c = false.
Proof.
  rewrite <- forallb_false. rewrite trim_nil.
  destruct (forallb is_js_whitespace s); split; congruence.
Qed.

(** ** Facts about every match *)

Lemma is_hspace_spec c : is_hspace c = true -> c = SPACE \/ c = TAB.
Proof.
  unfold is_hspace. simpl. rewrite !orb_true_iff, !char_eqb_eq.
  intuition discriminate.
Qed.

Lemma is_body_spec c : is_body c = true -> c <> DOLLAR /\ c <> NEWLINE.
Proof.
  unfold is_body. simpl. rewrite negb_true_iff, !orb_false_iff.
  intros (H1 & H2 & _). split; intros ->; discriminate.
Qed.

Lemma tolerant_padded text lo m : tolerant text lo m -> padded (m0 m).
Proof.
  intros [pre l r rest _ _ _ Hm0 Hl Hlo _ _ Hr Hro _ _].
  destruct l as [|c1 l]; [congruence|].
  destruct (exists_last Hr) as (r' & c2 & ->).
  exists c1, (l ++ m1 m ++ r'), c2. repeat split.
  - rewrite Hm0. simpl. now rewrite <- !app_assoc.
  - apply is_hspace_spec. now inversion Hlo.
  - apply is_hspace_spec. apply Forall_app in Hro. destruct Hro as [_ Hc].
    now inversion Hc.
Qed.

Lemma tolerant_one_formula text lo m : tolerant text lo m -> one_formula (m0 m).
Proof.
  intros [pre l r rest _ _ _ Hm0 _ Hlo _ Hbo _ Hro _ _].
  exists (l ++ m1 m ++ r). split.
  - rewrite Hm0. now rewrite <- !app_assoc.
  - rewrite !Forall_app. repeat split.
    + eapply Forall_impl; [|exact Hlo]. intros c Hc ->. discriminate.
    + eapply Forall_impl; [|exact Hbo]. intros c Hc. now apply is_body_spec.
    + eapply Forall_impl; [|exact Hro]. intros c Hc ->. discriminate.
Qed.

Lemma chain_Forall text (P : Match -> Prop) :
  (forall lo m, tolerant text lo m -> P m) ->
  forall ms lo, chain text lo ms -> Forall P ms.
Proof.
  intros HP. induction ms as [|m ms IH]; intros lo Hc; constructor.
  - destruct Hc. eauto.
  - destruct Hc. eauto.
Qed.

Lemma chain_separate text :
  forall ms lo, chain text lo ms -> separate lo ms.
Proof.
  induction ms as [|m ms IH]; intros lo Hc; simpl; auto.
  destruct Hc as [Ht Hc]. apply tolerant_bounds in Ht.
  repeat split; eauto; lia.
Qed.

(** ** The two vetoes *)

Lemma cursorInside_true cursors mf mt :
  cursorInside cursors mf mt = true <->
  exists r, In r cursors /\ from r <= mt /\ to r >= mf.
Proof.
  unfold cursorInside. rewrite existsb_exists. split.
  - intros (r & Hin & Hr). apply andb_true_iff in Hr. destruct Hr as [H1 H2].
    apply Nat.leb_le in H1, H2. exists r. repeat split; auto.
  - intros (r & Hin & H1 & H2). exists r. split; auto.
    apply andb_true_iff. split; apply Nat.leb_le; lia.
Qed.

Lemma overlapsNative_true native mf mt :
  overlapsNative native mf mt = true <->
  exists n, In n native /\ from n < mt /\ to n > mf.
Proof.
  unfold overlapsNative. rewrite existsb_exists. split.
  - intros (r & Hin & Hr). apply andb_true_iff in Hr. destruct Hr as [H1 H2].
    apply Nat.ltb_lt in H1, H2. exists r. repeat split; auto.
  - intros (r & Hin & H1 & H2). exists r. split; auto.
    apply andb_true_iff. split; apply Nat.ltb_lt; lia.
Qed.

Lemma cursorInside_false cursors mf mt :
  cursorInside cursors mf mt = false ->
  Forall (fun r => ~ (from r <= mt /\ to r >= mf)) cursors.
Proof.
  intros Hf. apply Forall_forall. intros r Hin [H1 H2].
  assert (cursorInside cursors mf mt = true)
    by (apply cursorInside_true; eauto).
  congruence.
Qed.

Lemma overlapsNative_false native mf mt :
  overlapsNative native mf mt = false <->
  Forall (fun n => ~ (from n < mt /\ to n > mf)) native.
Proof.
  split.
  - intros Hf. apply Forall_forall. intros r Hin [H1 H2].
    assert (overlapsNative native mf mt = true)
      by (apply overlapsNative_true; eauto).
    congruence.
  - intros Hall. destruct (overlapsNative native mf mt) eqn:Ho; auto.
    apply overlapsNative_true in Ho. destruct Ho as (n & Hin & H1 & H2).
    rewrite Forall_forall in Hall. exfalso. apply (Hall n Hin). auto.
Qed.

Lemma keep_In native cursors from m d :
  In d (keep native cursors from m) ->
  overlapsNative native (deco_from d) (deco_to d) = false /\
  cursorInside cursors (deco_from d) (deco_to d) = false.
Proof.
  unfold keep.
  destruct (overlapsNative _ _ _) eqn:Ho; [contradiction|].
  destruct (cursorInside _ _ _) eqn:Hc; [contradiction|].
  intros [<-|[]]. simpl. auto.
Qed.

Lemma decorations_of_In native cursors view d :
  In d (decorations_of native cursors view) ->
  overlapsNative native (deco_from d) (deco_to d) = false /\
  cursorInside cursors (deco_from d) (deco_to d) = false.
Proof.
  unfold decorations_of, decorations_in. intros Hin.
  apply in_flat_map in Hin. destruct Hin as (r & _ & Hin).
  apply in_flat_map in Hin. destruct Hin as (m & _ & Hin).
  eapply keep_In; eauto.
Qed.

(** ** Order of the decorations *)

Lemma dchain_weaken ds : forall lo lo' hi,
  lo' <= lo -> dchain lo ds hi -> dchain lo' ds hi.
Proof.
  destruct ds as [|d ds]; simpl; intros lo lo' hi Hle Hd; [lia|].
  destruct Hd as (H1 & H2 & H3). repeat split; auto. lia.
Qed.

Lemma dchain_widen ds : forall lo hi hi',
  hi <= hi' -> dchain lo ds hi -> dchain lo ds hi'.
Proof.
  induction ds as [|d ds IH]; simpl; intros lo hi hi' Hle Hd; [lia|].
  destruct Hd as (H1 & H2 & H3). repeat split; eauto.
Qed.

Lemma dchain_app ds1 : forall ds2 lo mid hi,
  dchain lo ds1 mid -> dchain mid ds2 hi -> dchain lo (ds1 ++ ds2) hi.
Proof.
  induction ds1 as [|d ds1 IH]; simpl; intros ds2 lo mid hi H1 H2.
  - apply dchain_weaken with (lo := mid); auto.
  - destruct H1 as (Ha & Hb & Hc). repeat split; eauto.
Qed.

Lemma dchain_lower ds : forall lo hi,
  dchain lo ds hi -> Forall (fun d => lo <= deco_from d) ds.
Proof.
  induction ds as [|d ds IH]; intros lo hi Hd; constructor.
  - simpl in Hd. tauto.
  - destruct Hd as (H1 & H2 & H3). apply IH in H3.
    eapply Forall_impl; [|exact H3]. simpl. intros. lia.
Qed.

Lemma dchain_ascending ds : forall lo hi,
  dchain lo ds hi ->
  ascending ds /\ Forall (fun d => deco_from d < deco_to d) ds.
Proof.
  unfold ascending.
  induction ds as [|d ds IH]; intros lo hi Hd; split; try constructor.
  - destruct Hd as (_ & _ & H3). eapply IH; eauto.
  - destruct Hd as (_ & H2 & H3). apply dchain_lower in H3.
    eapply Forall_impl; [|exact H3]. simpl. intros. lia.
  - simpl in Hd. tauto.
  - destruct Hd as (_ & _ & H3). eapply IH; eauto.
Qed.

Lemma keep_dchain native cursors from text :
  forall ms lo,
    lo <= length text -> chain text lo ms ->
    dchain (from + lo) (flat_map (keep native cursors from) ms)
           (from + length text).
Proof.
  induction ms as [|m ms IH]; intros lo Hlo Hc; simpl; [lia|].
  destruct Hc as [Ht Hc].
  pose proof (tolerant_bounds Ht) as (H1 & H2 & H3).
  specialize (IH _ H3 Hc).
  unfold keep at 1.
  destruct (overlapsNative _ _ _); simpl.
  - apply dchain_weaken with (lo := from + match_end m); [lia | exact IH].
  - destruct (cursorInside _ _ _); simpl.
    + apply dchain_weaken with (lo := from + match_end m); [lia | exact IH].
    + unfold match_end in *. repeat split; try lia.
      now rewrite <- Nat.add_assoc.
Qed.

Lemma length_sliceString view a b : length (sliceString view a b) <= b - a.
Proof. unfold sliceString, slice. rewrite length_firstn. lia. Qed.

Lemma decorations_of_dchain native cursors view :
  forall rs lo,
    ordered lo rs ->
    exists hi,
      dchain lo (flat_map (decorations_in native cursors view) rs) hi.
Proof.
  induction rs as [|r rs IH]; intros lo Ho; simpl.
  - exists lo. lia.
  - destruct Ho as (H1 & H2 & H3). destruct (IH _ H3) as (hi & Hhi).
    exists hi. eapply dchain_app; [|exact Hhi].
    unfold decorations_in.
    pose proof (length_sliceString view (from r) (to r)) as Hlen.
    pose proof (@keep_dchain native cursors (from r) _ _ 0 (Nat.le_0_l _)
                  (matchAll_chain (sliceString view (from r) (to r)))) as Hk.
    rewrite Nat.add_0_r in Hk.
    apply dchain_weaken with (lo := from r); auto.
    apply dchain_widen with (hi := from r + length (sliceString view (from r) (to r)));
      [lia | exact Hk].
Qed.

(** ** Fragments, calls and edits *)

Lemma assemble_In text :
  forall ps lastIdx m r,
    In (m, r) ps -> In (unit_of m r) (assemble text lastIdx ps).
Proof.
  induction ps as [|[m' r'] ps IH]; intros lastIdx m r Hin; [contradiction|].
  simpl. apply in_or_app. right. destruct Hin as [Heq|Hin].
  - injection Heq as <- <-. now left.
  - right. now apply IH.
Qed.

Lemma rendered_call_of ps :
  existsb is_rendered (map call_of ps) = any_returned ps.
Proof.
  unfold any_returned. induction ps as [|p ps IH]; simpl; auto.
  now rewrite IH.
Qed.

Lemma rendered_calls_of lps :
  existsb is_rendered (calls_of lps) =
  existsb (fun lp => any_returned (snd lp)) lps.
Proof.
  unfold calls_of. induction lps as [|lp lps IH]; simpl; auto.
  now rewrite existsb_app, rendered_call_of, IH.
Qed.

Lemma no_finish_calls_of lps :
  Forall (fun c => is_finish c = false) (calls_of lps).
Proof.
  unfold calls_of. apply Forall_forall. intros c Hin.
  apply in_flat_map in Hin. destruct Hin as (lp & _ & Hin).
  apply in_map_iff in Hin. destruct Hin as (q & <- & _). reflexivity.
Qed.

Lemma flushes_app cs1 cs2 : flushes (cs1 ++ cs2) = flushes cs1 + flushes cs2.
Proof. unfold flushes. now rewrite filter_app, length_app. Qed.

Lemma flushes_none cs :
  Forall (fun c => is_finish c = false) cs -> flushes cs = 0.
Proof.
  unfold flushes. induction 1 as [|c cs Hc _ IH]; simpl; auto.
  now rewrite Hc.
Qed.

Lemma Node_nested_ind (P : Node -> Prop) :
  (forall t, P (TextNode t)) ->
  (forall tag cl kids, Forall P kids -> P (ElementNode tag cl kids)) ->
  forall n, P n.
Proof.
  intros Ht He. fix IH 1. intros [t|tag cl kids].
  - apply Ht.
  - apply He. induction kids as [|k ks IHks]; constructor.
    + apply IH.
    + apply IHks.
Qed.

Lemma splice_list_none f :
  forall ns,
    Forall (fun n => forall es, all_none es ->
                                fst (f n es) = [n] /\ all_none (snd (f n es))) ns ->
    forall es, all_none es ->
               fst (splice_list f ns es) = ns /\ all_none (snd (splice_list f ns es)).
Proof.
  induction ns as [|k ns IH]; intros Hall es Hes; simpl; auto.
  inversion Hall as [|? ? Hk Hns]; subst.
  destruct (Hk es Hes) as [Hk1 Hk2].
  destruct (f k es) as [k' es']. simpl in *. subst k'.
  destruct (IH Hns es' Hk2) as [Hn1 Hn2].
  destruct (splice_list f ns es') as [ns'' es'']. simpl in *. now subst ns''.
Qed.

(** Edits that are all [None] leave every node as it was. *)
Lemma splice_none :
  forall n parent es,
    all_none es ->
    fst (splice parent n es) = [n] /\ all_none (snd (splice parent n es)).
Proof.
  induction n as [t|tag cl kids IH] using Node_nested_ind; intros parent es Hes.
  - cbn [splice]. destruct (acceptNode (Some parent) t); auto.
    inversion Hes as [|e es' He Hes']; subst; simpl; auto.
  - cbn [splice].
    assert (Hkids : Forall (fun n => forall es, all_none es ->
                fst (splice (tag, cl) n es) = [n] /\
                all_none (snd (splice (tag, cl) n es))) kids).
    { eapply Forall_impl; [|exact IH]. intros k Hk es0. apply Hk. }
    destruct (splice_list_none _ Hkids Hes) as [H1 H2].
    destruct (splice_list (splice (tag, cl)) kids es) as [kids' rest].
    simpl in *. now subst kids'.
Qed.

Lemma spliced_none element es : all_none es -> spliced element es = element.
Proof.
  intros Hes. unfold spliced.
  assert (Hkids : Forall (fun n => forall es, all_none es ->
              fst (splice (tagName element, classList element) n es) = [n] /\
              all_none (snd (splice (tagName element, classList element) n es)))
            (childNodes element)).
  { apply Forall_forall. intros n _ es0. apply splice_none. }
  destruct (splice_list_none _ Hkids Hes) as [H1 _]. rewrite H1.
  now destruct element.
Qed.

Lemma edits_none lps :
  existsb (fun lp => any_returned (snd lp)) lps = false ->
  all_none (map edit_of lps).
Proof.
  unfold all_none. induction lps as [|[t ps] lps IH]; simpl; intros Hex.
  - constructor.
  - apply orb_false_iff in Hex. destruct Hex as [Hp Hl].
    constructor; auto. unfold edit_of. now rewrite Hp.
Qed.

(** ** Two remarks on what the guards are for *)

(** Without the reset between [test] and the loop, the loop resumes after
    the match [test] found and misses it. *)
Lemma loop_without_reset_misses_a_match :
  (set_lastIndex 0 ;; test (js "$ a $") ;;
   while_exec 6 (js "$ a $") (fun m acc => ret (acc ++ [m])) []) toyWorld =
  Some ([], @mkWorld toyHost 0 0 []) /\
  @scanAll toyHost (js "$ a $") toyWorld =
  Some ([mkMatch 0 (js "$ a $") (js "a")], @mkWorld toyHost 0 0 []).
Proof. split; vm_compute; reflexivity. Qed.

(** Between two native formulas, [$x$ and $y$], the pattern matches
    [$ and $].  The source, told of the native formulas, skips it; the
    built [main.js] decorates it. *)
Lemma native_ranges_stop_a_match_across_formulas :
  let view tree := mkView (js "$x$ and $y$") [mkRange 0 0] [mkRange 0 11] tree in
  let tree (_ _ : nat) :=
    [mkSyntaxNode (js "InlineMath") 0 3; mkSyntaxNode (js "InlineMath") 8 11] in
  @MainTs.buildDecorations toyHost (view tree) toyWorld =
  Some ([], @mkWorld toyHost 0 0 []) /\
  @MainJs.buildDecorations toyHost (view tree) toyWorld =
  Some ([mkDecoration 2 9 (mkWidget (js "and"))],
        @mkWorld toyHost 0 0 [FinishRenderMath]).
Proof. split; vm_compute; reflexivity. Qed.

(** * The claims *)

Lemma scanAll_eval {H : Host} text ms w :
  matchAll text = ms -> exists w', scanAll text w = Some (ms, w').
Proof. intros <-. rewrite scanAll_spec. eauto. Qed.

Lemma scanAll_Forall {H : Host} (P : JsString -> Match -> Prop) :
  (forall text lo m, tolerant text lo m -> P text m) ->
  forall text w,
    exists ms w', scanAll text w = Some (ms, w') /\ Forall (P text) ms.
Proof.
  intros HP text w. rewrite scanAll_spec. do 2 eexists. split; [reflexivity|].
  eapply chain_Forall; [|apply matchAll_chain]. intros lo m. apply HP.
Qed.

(** C1.  Both paddings are mandatory: whatever the text, every match a full
    scan returns is exactly the span of the text it reports, and that span
    has a space or a tab right after its opening dollar and right before
    its closing dollar.  In particular [$formula$], [$ formula$],
    [$formula $] and [The price is $5 and $10.] give no match at all. *)
Theorem C1_both_paddings_are_mandatory {H : Host} :
  (forall text w,
      exists ms w',
        scanAll text w = Some (ms, w') /\
        Forall (fun m => m0 m = slice text (index m) (match_end m) /\
                         padded (m0 m)) ms) /\
  (forall w, exists w', scanAll (js "$formula$") w = Some ([], w')) /\
  (forall w, exists w', scanAll (js "$ formula$") w = Some ([], w')) /\
  (forall w, exists w', scanAll (js "$formula $") w = Some ([], w')) /\
  (forall w, exists w',
        scanAll (js "The price is $5 and $10.") w = Some ([], w')).
Proof.
  split.
  - apply (scanAll_Forall
             (fun text m => m0 m = slice text (index m) (match_end m) /\
                            padded (m0 m))).
    intros text lo m Ht. split.
    + eapply tolerant_slice; eauto.
    + eapply tolerant_padded; eauto.
  - repeat split; intros w; apply scanAll_eval; vm_compute; reflexivity.
Qed.

(** C4, the claim as stated fails: in [$   $] (three spaces) the pattern
    matches with the middle space as its capture, and the formula, the
    capture trimmed, is empty.  The Live Preview scanner builds a widget
    for the empty formula. *)
Lemma C4_counterexample :
  (exists m w',
      @scanAll toyHost (js "$   $") toyWorld = Some ([m], w') /\
      m1 m = js " " /\ trim (m1 m) = []) /\
  (exists w',
      @MainJs.buildDecorations toyHost
        (mkView (js "$   $") [] [mkRange 0 5] (fun _ _ => [])) toyWorld =
      Some ([mkDecoration 0 5 (mkWidget [])], w')).
Proof.
  split.
  - exists (mkMatch 0 (js "$   $") (js " ")), (@mkWorld toyHost 0 0 []).
    repeat split; vm_compute; reflexivity.
  - exists (@mkWorld toyHost 0 0 [FinishRenderMath]). vm_compute. reflexivity.
Qed.

(** C4, amended.  For every match of a full scan the capture [match[1]] is
    non-empty and holds neither a dollar nor a newline; the formula, the
    capture trimmed, is non-empty exactly when the capture holds a code
    unit that is not white space. *)
Theorem C4_formula_nonempty_unless_blank {H : Host} :
  forall text w,
    exists ms w',
      scanAll text w = Some (ms, w') /\
      Forall (fun m =>
                m1 m <> [] /\
                Forall (fun c => c <> DOLLAR /\ c <> NEWLINE) (m1 m) /\
                (trim (m1 m) <> [] <->
                 exists c, In c (m1 m) /\ is_js_whitespace c = false)) ms.
Proof.
  apply (scanAll_Forall
           (fun _ m =>
              m1 m <> [] /\
              Forall (fun c => c <> DOLLAR /\ c <> NEWLINE) (m1 m) /\
              (trim (m1 m) <> [] <->
               exists c, In c (m1 m) /\ is_js_whitespace c = false))).
  intros text lo m [pre l r rest _ _ _ _ _ _ Hb Hbo _ _ _ _].
  repeat split; auto.
  - eapply Forall_impl; [|exact Hbo]. intros c. apply is_body_spec.
  - apply trim_nonempty.
  - apply trim_nonempty.
Qed.

(** C2.  The selection veto is the inclusive test
    [r.from <= matchTo && r.to >= matchFrom]; a match it fires on is skipped
    by the loop body of either file; a selection range that only touches
    the match, at [r.from = matchTo] or [r.to = matchFrom], fires it; and
    no decoration of a rebuild is met by any selection range. *)
Theorem C2_selection_veto_is_inclusive {H : Host} :
  (forall cursors matchFrom matchTo,
      cursorInside cursors matchFrom matchTo = true <->
      exists r, In r cursors /\ from r <= matchTo /\ to r >= matchFrom) /\
  (forall cursors r matchFrom matchTo,
      In r cursors -> from r <= to r -> matchFrom <= matchTo ->
      from r = matchTo \/ to r = matchFrom ->
      cursorInside cursors matchFrom matchTo = true) /\
  (forall cursors start m st,
      cursorInside cursors (start + index m) (start + index m + length (m0 m)) = true ->
      MainJs.loop_body cursors start m st = ret st) /\
  (forall native cursors start m st,
      cursorInside cursors (start + index m) (start + index m + length (m0 m)) = true ->
      MainTs.loop_body native cursors start m st = ret st) /\
  (forall view w,
      exists ds w',
        MainJs.buildDecorations view w = Some (ds, w') /\
        Forall (fun d =>
                  Forall (fun r => ~ (from r <= deco_to d /\ to r >= deco_from d))
                         (selection_ranges view)) ds) /\
  (forall view w,
      exists ds w',
        MainTs.buildDecorations view w = Some (ds, w') /\
        Forall (fun d =>
                  Forall (fun r => ~ (from r <= deco_to d /\ to r >= deco_from d))
                         (selection_ranges view)) ds).
Proof.
  repeat apply conj.
  - apply cursorInside_true.
  - intros cursors r mf mt Hin Hr Hm Htouch. apply cursorInside_true.
    exists r. split; auto. lia.
  - intros cursors start m st Hc. unfold MainJs.loop_body. now rewrite Hc.
  - intros native cursors start m st Hc. unfold MainTs.loop_body. rewrite Hc.
    now destruct (overlapsNative _ _ _).
  - intros view w. rewrite js_buildDecorations_spec. cbv zeta.
    do 2 eexists. split; [reflexivity|]. apply Forall_forall. intros d Hd.
    apply decorations_of_In in Hd. now apply cursorInside_false.
  - intros view w. rewrite ts_buildDecorations_spec. cbv zeta.
    do 2 eexists. split; [reflexivity|]. apply Forall_forall. intros d Hd.
    apply decorations_of_In in Hd. now apply cursorInside_false.
Qed.

(** A cursor right after the closing dollar of [$ a $] at [3..8). *)
Lemma C2_witness :
  (In (mkRange 8 8) [mkRange 8 8] /\ 8 <= 8 /\ 3 <= 8 /\ (8 = 8 \/ 8 = 3)) /\
  cursorInside [mkRange 8 8] 3 8 = true /\
  @MainJs.loop_body toyHost [mkRange 8 8] 3
     (mkMatch 0 (js "$ a $") (js "a")) ([], false) = ret ([], false).
Proof.
  split; [simpl; repeat split; auto; lia|]. split.
  - apply (proj1 (proj2 (@C2_selection_veto_is_inclusive toyHost))
             [mkRange 8 8] (mkRange 8 8) 3 8); simpl; auto; lia.
  - apply (proj1 (proj2 (proj2 (@C2_selection_veto_is_inclusive toyHost)))).
    reflexivity.
Defined.

(** C3.  In [src/main.ts] the native-math veto is the half-open test
    [r.from < matchTo && r.to > matchFrom]; a match it fires on is skipped;
    a match that every native range leaves alone or merely touches
    ([r.to <= matchFrom] or [matchTo <= r.from]), and that no cursor is in,
    is decorated; and no decoration of a rebuild overlaps a native range.
    The built [main.js] asks for no native ranges: it is the source run on
    a view whose syntax tree reports nothing. *)
Theorem C3_native_veto_is_half_open {H : Host} :
  (forall native matchFrom matchTo,
      overlapsNative native matchFrom matchTo = true <->
      exists r, In r native /\ from r < matchTo /\ to r > matchFrom) /\
  (forall native cursors start m st,
      overlapsNative native (start + index m) (start + index m + length (m0 m)) = true ->
      MainTs.loop_body native cursors start m st = ret st) /\
  (forall native cursors start m st,
      Forall (fun r => to r <= start + index m \/
                       start + index m + length (m0 m) <= from r) native ->
      cursorInside cursors (start + index m) (start + index m + length (m0 m)) = false ->
      MainTs.loop_body native cursors start m st =
      ret (fst st ++ [mkDecoration (start + index m)
                                   (start + index m + length (m0 m))
                                   (mkWidget (trim (m1 m)))], true)) /\
  (forall view w,
      exists ds w',
        MainTs.buildDecorations view w = Some (ds, w') /\
        Forall (fun d =>
                  Forall (fun r => ~ (from r < deco_to d /\ to r > deco_from d))
                         (MainTs.nativeMathRanges view)) ds) /\
  (forall view w,
      MainJs.buildDecorations view w =
      MainTs.buildDecorations (without_tree view) w).
Proof.
  repeat apply conj; [| | | |apply js_is_ts_without_tree].
  - apply overlapsNative_true.
  - intros native cursors start m st Ho. unfold MainTs.loop_body. now rewrite Ho.
  - intros native cursors start m st Hall Hc. unfold MainTs.loop_body.
    rewrite Hc.
    replace (overlapsNative native _ _) with false; [reflexivity|].
    symmetry. apply overlapsNative_false.
    eapply Forall_impl; [|exact Hall]. simpl. intros r Hr. lia.
  - intros view w. rewrite ts_buildDecorations_spec. cbv zeta.
    do 2 eexists. split; [reflexivity|]. apply Forall_forall. intros d Hd.
    apply decorations_of_In in Hd. now apply overlapsNative_false.
Qed.

(** Native math ends at 3, where [$ a $] begins; the cursor is far away. *)
Lemma C3_witness :
  @MainTs.loop_body toyHost [mkRange 0 3] [mkRange 20 20] 3
     (mkMatch 0 (js "$ a $") (js "a")) ([], false) =
  ret ([mkDecoration 3 8 (mkWidget (js "a"))], true).
Proof.
  apply (proj1 (proj2 (proj2 (@C3_native_veto_is_half_open toyHost)))
           [mkRange 0 3] [mkRange 20 20] 3 (mkMatch 0 (js "$ a $") (js "a"))
           ([], false)).
  - repeat constructor.
  - reflexivity.
Defined.

(** C6.  For visible ranges as the editor supplies them (each well formed,
    in order, not overlapping), whatever the document, the selection and
    the syntax tree, a rebuild by either file returns decorations with
    strictly ascending starts, each ending before the next begins, none
    empty. *)
Theorem C6_decorations_ascend {H : Host} view w :
  ordered 0 (visibleRanges view) ->
  (exists ds w',
      MainJs.buildDecorations view w = Some (ds, w') /\
      ascending ds /\ Forall (fun d => deco_from d < deco_to d) ds) /\
  (exists ds w',
      MainTs.buildDecorations view w = Some (ds, w') /\
      ascending ds /\ Forall (fun d => deco_from d < deco_to d) ds).
Proof.
  intros Hord. split.
  - rewrite js_buildDecorations_spec. cbv zeta. do 2 eexists.
    split; [reflexivity|].
    destruct (decorations_of_dchain [] (selection_ranges view) view _ _ Hord)
      as (hi & Hd).
    eapply dchain_ascending; eauto.
  - rewrite ts_buildDecorations_spec. cbv zeta. do 2 eexists.
    split; [reflexivity|].
    destruct (decorations_of_dchain (MainTs.nativeMathRanges view)
                (selection_ranges view) view _ _ Hord) as (hi & Hd).
    eapply dchain_ascending; eauto.
Qed.

(** Two visible ranges over [$ a $ and $ b $ or $ c $], a cursor in [$ b $]. *)
Lemma C6_witness :
  ordered 0 [mkRange 0 9; mkRange 10 25] /\
  exists ds w',
    @MainJs.buildDecorations toyHost
      (mkView (js "$ a $ and $ b $ or $ c $") [mkRange 12 12]
              [mkRange 0 9; mkRange 10 25] (fun _ _ => [])) toyWorld =
    Some (ds, w') /\
    ascending ds /\ Forall (fun d => deco_from d < deco_to d) ds.
Proof.
  split; [simpl; lia|].
  apply (@C6_decorations_ascend toyHost
           (mkView (js "$ a $ and $ b $ or $ c $") [mkRange 12 12]
                   [mkRange 0 9; mkRange 10 25] (fun _ _ => [])) toyWorld).
  simpl. lia.
Defined.

(** C7.  A render call that throws costs nothing but its own output.
    The widget's [toDOM] always returns its span, and when [renderMath]
    threw the span holds the text [$ formula $].  [replaceTextNodeWithMath]
    always returns; it makes one render call per match of its text, in
    order, whatever the earlier calls did; and in the fragment it splices
    in, a match whose call threw is a text node with exactly [match[0]],
    the span of the text it matched, while a match whose call returned is
    the element returned.  [processElement] always returns. *)
Theorem C7_render_failure_falls_back {H : Host} :
  (forall this w,
      exists span w',
        toDOM this w = Some (span, w') /\
        calls w' =
        calls w ++
        [RenderMath (formula this) false
           (returned (fst (host_renderMath (formula this) false (mathjax w))))] /\
        (fst (host_renderMath (formula this) false (mathjax w)) = None ->
         childNodes span = [TextNode (js "$ " ++ formula this ++ js " $")])) /\
  (forall text parentNode w,
      exists didReplace edit w' ps,
        replaceTextNodeWithMath text parentNode w = Some ((didReplace, edit), w') /\
        ps = fst (outcomes (matchAll text) (mathjax w)) /\
        map fst ps = matchAll text /\
        calls w' = calls w ++ map call_of ps /\
        Forall (fun m => m0 m = slice text (index m) (match_end m))
               (matchAll text) /\
        forall fragment,
          edit = Some fragment ->
          Forall (fun p =>
                    match snd p with
                    | None => In (TextNode (m0 (fst p))) fragment
                    | Some mathEl =>
                        In (node_of (classList_add mathEl
                                       (js "tolerant-math-inline"))) fragment
                    end) ps) /\
  (forall element w,
      exists element' w', processElement element w = Some (element', w')).
Proof.
  repeat apply conj.
  - intros this w. unfold toDOM, bind, renderMath.
    destruct (host_renderMath (formula this) false (mathjax w)) as [[el|] mj'];
      simpl; do 2 eexists; repeat split; intros Hx;
      try discriminate Hx; reflexivity.
  - intros text parentNode w. rewrite replaceTextNodeWithMath_spec.
    pose proof (outcomes_fst (matchAll text) (mathjax w)) as Hfst.
    destruct (outcomes (matchAll text) (mathjax w)) as [ps mj']. simpl in Hfst.
    cbv zeta. do 3 eexists. exists ps. repeat split; auto.
    + eapply chain_Forall; [|apply matchAll_chain].
      intros lo m. apply tolerant_slice.
    + intros fragment Hedit.
      destruct (existsb _ ps && parentNode); [|discriminate].
      injection Hedit as <-. apply Forall_forall. intros [m r] Hin.
      pose proof (@assemble_In text ps 0 m r Hin) as Hu.
      destruct r; simpl in *; apply in_or_app; left; exact Hu.
  - intros element w. rewrite processElement_spec.
    destruct (leaves _ _) as [lps mj']. cbv zeta. eauto.
Qed.

(** The toy host refuses [\oops]: the widget shows [$ \oops $]. *)
Lemma C7_witness :
  fst (@host_renderMath toyHost (js "\oops") false 0) = None /\
  exists span w',
    @toDOM toyHost (mkWidget (js "\oops")) toyWorld = Some (span, w') /\
    childNodes span = [TextNode (js "$ \oops $")].
Proof.
  split; [reflexivity|].
  destruct (proj1 (@C7_render_failure_falls_back toyHost)
              (mkWidget (js "\oops")) toyWorld)
    as (span & w' & Hrun & _ & Hfail).
  exists span, w'. split; [exact Hrun|]. exact (Hfail eq_refl).
Defined.

(** C8.  [processElement] always returns.  Its calls to the host are one
    render call for each match of each collected text node, in order, and
    after them one [finishRenderMath] if a render call returned, none
    otherwise: one flush or no flush, never more. *)
Theorem C8_one_flush_iff_rendered {H : Host} :
  forall element w,
    exists element' w' lps renders,
      processElement element w = Some (element', w') /\
      map fst lps = nodesToProcess element /\
      Forall (fun lp => map fst (snd lp) = matchAll (fst lp)) lps /\
      renders = calls_of lps /\
      Forall (fun c => is_finish c = false) renders /\
      calls w' =
      calls w ++ renders ++
      (if existsb is_rendered renders then [FinishRenderMath] else []) /\
      flushes (renders ++
               if existsb is_rendered renders then [FinishRenderMath] else []) =
      (if existsb is_rendered renders then 1 else 0).
Proof.
  intros element w. rewrite processElement_spec.
  pose proof (leaves_fst (nodesToProcess element) (mathjax w)) as Hfst.
  pose proof (leaves_matches (nodesToProcess element) (mathjax w)) as Hms.
  destruct (leaves _ _) as [lps mj']. simpl in Hfst, Hms. cbv zeta.
  do 2 eexists. exists lps, (calls_of lps).
  rewrite rendered_calls_of.
  repeat split; auto.
  - apply no_finish_calls_of.
  - rewrite flushes_app, (flushes_none (no_finish_calls_of lps)).
    now destruct (existsb _ lps).
Qed.

Lemma exec_host {H : Host} text w :
  exists r i, exec text w = Some (r, mkWorld i (mathjax w) (calls w)).
Proof.
  unfold exec. destruct (length text <? lastIndex w); [eauto|].
  destruct (search_from _ _ _); eauto.
Qed.

Lemma use_total {H : Host} u w : exists w1, use u w = Some (tt, w1).
Proof.
  destruct u as [t|t|t p|e|v|v]; unfold use.
  - destruct (exec_host t w) as (r & i & He).
    erewrite bind_Some by exact He. unfold ret. eauto.
  - destruct (exec_host t w) as (r & i & He).
    unfold test. erewrite bind_Some by (erewrite bind_Some by exact He; reflexivity).
    unfold ret. eauto.
  - unfold bind. rewrite replaceTextNodeWithMath_spec.
    destruct (outcomes _ _) as [ps mj']. unfold ret. eauto.
  - unfold bind. rewrite processElement_spec.
    destruct (leaves _ _) as [lps mj']. unfold ret. eauto.
  - unfold bind. rewrite js_buildDecorations_spec. unfold ret. eauto.
  - unfold bind. rewrite ts_buildDecorations_spec. unfold ret. eauto.
Qed.

Lemma uses_total {H : Host} earlier :
  forall w, exists w1, uses earlier w = Some (tt, w1).
Proof.
  unfold uses. induction earlier as [|u us IH]; intros w; cbn [for_of].
  - unfold ret. eauto.
  - destruct (use_total u w) as (w1 & Hu).
    erewrite bind_Some by exact Hu. apply IH.
Qed.

(** C9.  The fresh scan of a text is the [exec] loop run from
    [lastIndex = 0]; it gives [matchAll text].  After any earlier uses of
    the regular expression (single [exec] or [test] calls, whole runs of
    the scanners, over the same or other texts, leaving any [lastIndex]
    behind), each scanner works on exactly the matches of the fresh scan,
    all of them and in order: [replaceTextNodeWithMath] makes one render
    call per match of the fresh scan of its text and builds its result
    from their answers, [processElement] does so for every collected text
    node, and both [buildDecorations] return the decorations of the fresh
    scan of every visible range.  So after a [test] on [$ a $], the scan
    of [$ a $] still renders [a].  The resets are what does it: the loop
    entered right after the [test], without the reset between them,
    finds nothing in [$ a $]. *)
Theorem C9_no_match_is_missed_after_an_earlier_scan {H : Host} :
  (forall text mj cs,
      while_exec (S (length text)) text (fun m acc => ret (acc ++ [m])) []
                 (mkWorld 0 mj cs) =
      Some (matchAll text, mkWorld 0 mj cs)) /\
  (forall ms mj, map fst (fst (outcomes ms mj)) = ms) /\
  (forall earlier w,
      exists w1,
        uses earlier w = Some (tt, w1) /\
        (forall text,
            (uses earlier ;; scanAll text) w =
            Some (matchAll text, mkWorld 0 (mathjax w1) (calls w1))) /\
        (forall text parentNode,
            (uses earlier ;; replaceTextNodeWithMath text parentNode) w =
            let (ps, mj') := outcomes (matchAll text) (mathjax w1) in
            Some ((any_returned ps,
                   if any_returned ps && parentNode
                   then Some (assemble text 0 ps ++ tail_of text (end_of 0 ps))
                   else None),
                  mkWorld 0 mj' (calls w1 ++ map call_of ps))) /\
        (forall element,
            exists lps w',
              (uses earlier ;; processElement element) w =
              Some (spliced element (map edit_of lps), w') /\
              map fst lps = nodesToProcess element /\
              Forall (fun lp => map fst (snd lp) = matchAll (fst lp)) lps /\
              calls w' =
              calls w1 ++ calls_of lps ++
              (if existsb (fun lp => any_returned (snd lp)) lps
               then [FinishRenderMath] else [])) /\
        (forall view,
            exists w',
              (uses earlier ;; MainJs.buildDecorations view) w =
              Some (decorations_of [] (selection_ranges view) view, w')) /\
        (forall view,
            exists w',
              (uses earlier ;; MainTs.buildDecorations view) w =
              Some (decorations_of (MainTs.nativeMathRanges view)
                                   (selection_ranges view) view, w'))) /\
  (forall parentNode w,
      exists r w',
        (test (js "$ a $") ;;
         replaceTextNodeWithMath (js "$ a $") parentNode) w =
        Some (r, w') /\
        calls w' = calls w ++ [RenderMath (js "a") false (fst r)]) /\
  (forall w,
      (set_lastIndex 0 ;; test (js "$ a $") ;;
       while_exec 6 (js "$ a $") (fun m acc => ret (acc ++ [m])) []) w =
      Some ([], mkWorld 0 (mathjax w) (calls w))).
Proof.
  split; [|split; [|split; [|split]]].
  - intros text mj cs.
    rewrite while_exec_scan by (try (intros; apply frames_ret); simpl; lia).
    apply for_of_collect.
  - apply outcomes_fst.
  - intros earlier w. destruct (uses_total earlier w) as (w1 & Hu).
    exists w1. split; [exact Hu|].
    split; [|split; [|split; [|split]]].
    + intros text. erewrite bind_Some by exact Hu. apply scanAll_spec.
    + intros text parentNode. erewrite bind_Some by exact Hu.
      apply replaceTextNodeWithMath_spec.
    + intros element. erewrite bind_Some by exact Hu.
      rewrite processElement_spec.
      pose proof (leaves_fst (nodesToProcess element) (mathjax w1)) as Hfst.
      pose proof (leaves_matches (nodesToProcess element) (mathjax w1)) as Hms.
      destruct (leaves _ _) as [lps mj']. cbn [fst] in Hfst, Hms. cbv zeta.
      exists lps. eexists. split; [reflexivity|]. repeat split; auto.
    + intros view. erewrite bind_Some by exact Hu.
      rewrite js_buildDecorations_spec. cbv zeta. eauto.
    + intros view. erewrite bind_Some by exact Hu.
      rewrite ts_buildDecorations_spec. cbv zeta. eauto.
  - intros parentNode w. destruct (exec_host (js "$ a $") w) as (r0 & i & He).
    unfold test at 1.
    erewrite bind_Some
      by (erewrite bind_Some by exact He; unfold ret; reflexivity).
    rewrite replaceTextNodeWithMath_spec. cbn [mathjax calls].
    replace (matchAll (js "$ a $")) with [mkMatch 0 (js "$ a $") (js "a")]
      by (vm_compute; reflexivity).
    cbn [outcomes m1].
    replace (trim (js "a")) with (js "a") by (vm_compute; reflexivity).
    destruct (host_renderMath (js "a") false (mathjax w)) as [r mj'].
    do 2 eexists. split; [reflexivity|].
    cbn [calls map call_of fst snd m1 existsb orb].
    replace (trim (js "a")) with (js "a") by (vm_compute; reflexivity).
    now rewrite orb_false_r.
  - intros [i mj cs]. reflexivity.
Qed.

(** C10.  When every render call for a text node threw,
    [replaceTextNodeWithMath] returns false and makes no edit, the loop of
    [processElement] keeps its [didRender] and records no edit, and
    [splice] leaves a node without an edit as it is; a fragment is spliced
    in only if one of the node's own render calls returned.  When no
    render call of a whole [processElement] returned, the element comes
    back unchanged and nothing is flushed. *)
Theorem C10_all_failed_leaf_is_untouched {H : Host} :
  (forall text parentNode w,
      exists didReplace edit w' renders,
        replaceTextNodeWithMath text parentNode w = Some ((didReplace, edit), w') /\
        calls w' = calls w ++ renders /\
        didReplace = existsb is_rendered renders /\
        (existsb is_rendered renders = false ->
         didReplace = false /\ edit = None) /\
        (forall fragment,
            edit = Some fragment -> existsb is_rendered renders = true)) /\
  (forall text st w,
      exists st' w' renders,
        process_step text st w = Some (st', w') /\
        calls w' = calls w ++ renders /\
        (existsb is_rendered renders = false ->
         st' = (fst st, snd st ++ [None]))) /\
  (forall parent t rest,
      splice parent (TextNode t) (None :: rest) =
      ([TextNode t], if acceptNode (Some parent) t then rest else None :: rest)) /\
  (forall element w,
      exists element' w' evs,
        processElement element w = Some (element', w') /\
        calls w' = calls w ++ evs /\
        (existsb is_rendered evs = false ->
         element' = element /\ flushes evs = 0)).
Proof.
  repeat apply conj.
  - intros text parentNode w. rewrite replaceTextNodeWithMath_spec.
    destruct (outcomes (matchAll text) (mathjax w)) as [ps mj']. cbv zeta.
    do 3 eexists. exists (map call_of ps). rewrite rendered_call_of.
    fold (any_returned ps).
    split; [reflexivity|]. split; [reflexivity|]. split; [reflexivity|]. split.
    + intros Hno. now rewrite Hno.
    + intros fragment. destruct (any_returned ps); [auto|discriminate].
  - intros text [didRender edits] w. unfold process_step. unfold bind at 1.
    rewrite replaceTextNodeWithMath_spec.
    destruct (outcomes (matchAll text) (mathjax w)) as [ps mj']. cbv zeta.
    unfold ret. do 2 eexists. exists (map call_of ps).
    rewrite rendered_call_of. fold (any_returned ps).
    split; [reflexivity|]. split; [reflexivity|].
    simpl. intros Hno. now rewrite Hno.
  - intros parent t rest. cbn [splice].
    now destruct (acceptNode (Some parent) t).
  - intros element w. rewrite processElement_spec.
    destruct (leaves _ _) as [lps mj']. cbv zeta.
    do 2 eexists.
    exists (calls_of lps ++
            if existsb (fun lp => any_returned (snd lp)) lps
            then [FinishRenderMath] else []).
    split; [reflexivity|]. split; [reflexivity|]. intros Hno.
    rewrite existsb_app, rendered_calls_of in Hno.
    apply orb_false_iff in Hno. destruct Hno as [Hno _]. rewrite Hno. split.
    + apply spliced_none. now apply edits_none.
    + rewrite app_nil_r. apply flushes_none. apply no_finish_calls_of.
Qed.

(** The only formula of [$ \oops $] is refused: no edit, nothing returned. *)
Lemma C10_witness :
  exists w',
    @replaceTextNodeWithMath toyHost (js "$ \oops $") true toyWorld =
    Some ((false, None), w') /\
    calls w' = [RenderMath (js "\oops") false false].
Proof.
  destruct (proj1 (@C10_all_failed_leaf_is_untouched toyHost)
              (js "$ \oops $") true toyWorld)
    as (didReplace & edit & w' & renders & Hrun & Hcalls & Hdid & Hfail & _).
  assert (Hw : calls w' = [RenderMath (js "\oops") false false]).
  { clear - Hrun. vm_compute in Hrun. injection Hrun as _ _ <-. reflexivity. }
  assert (Hr : renders = [RenderMath (js "\oops") false false]).
  { rewrite Hcalls in Hw. exact Hw. }
  destruct (Hfail ltac:(rewrite Hr; reflexivity)) as [-> ->].
  exists w'. split; [exact Hrun | exact Hw].
Defined.

(** * Further properties of the code *)

(** ** The matcher *)

Lemma chain_count text :
  forall ms lo,
    lo <= length text -> chain text lo ms -> lo + 5 * length ms <= length text.
Proof.
  induction ms as [|m ms IH]; intros lo Hlo Hc; simpl; [lia|].
  destruct Hc as [Ht Hc]. pose proof (tolerant_bounds Ht) as (H1 & H2 & H3).
  specialize (IH _ H3 Hc). lia.
Qed.

Lemma tolerant_no_newline text lo m : tolerant text lo m -> ~ In NEWLINE (m0 m).
Proof.
  intros [pre l r rest _ _ _ Hm0 _ Hlo _ Hbo _ Hro _ _] Hin.
  rewrite Hm0 in Hin. destruct Hin as [Hd|Hin]; [discriminate|].
  rewrite !in_app_iff in Hin. rewrite Forall_forall in Hlo, Hbo, Hro.
  destruct Hin as [Hin|[Hin|[Hin|Hin]]].
  - apply Hlo in Hin. discriminate.
  - apply Hbo in Hin. discriminate.
  - apply Hro in Hin. discriminate.
  - destruct Hin as [Hd|[]]. discriminate.
Qed.

(** X1.  Whatever the text, every match of a full scan lies inside the
    text, is at least five code units long and holds no newline; so a text
    has at most a fifth of its length in matches. *)
Theorem X1_matches_are_short_lines_inside_the_text {H : Host} :
  forall text w,
    exists ms w',
      scanAll text w = Some (ms, w') /\
      Forall (fun m => match_end m <= length text /\
                       5 <= length (m0 m) /\
                       ~ In NEWLINE (m0 m)) ms /\
      5 * length ms <= length text.
Proof.
  intros text w. rewrite scanAll_spec. do 2 eexists.
  split; [reflexivity|]. split.
  - eapply chain_Forall; [|apply matchAll_chain]. intros lo m Ht.
    pose proof (tolerant_bounds Ht) as (H1 & H2 & H3). unfold match_end in *.
    repeat split; try lia. eapply tolerant_no_newline; eauto.
  - pose proof (@chain_count text (matchAll text) 0 (Nat.le_0_l _)
                  (matchAll_chain text)). lia.
Qed.

Lemma tolerant_not_doubled text lo m :
  tolerant text lo m ->
  (forall i, S i = index m -> nth_error text i <> Some DOLLAR) /\
  nth_error text (match_end m) <> Some DOLLAR.
Proof.
  intros [pre l r rest Ht Hi _ _ _ _ _ _ _ _ Hbeh Hah]. split.
  - intros i Hsi Hn.
    destruct (@exists_last _ pre) as (p & c & Hp).
    { intros ->. simpl in Hi. lia. }
    rewrite Ht, Hp in Hn. rewrite Hp, length_app in Hi. simpl in Hi.
    assert (Hip : i = length p) by lia.
    rewrite <- !app_assoc, nth_error_app2, Hip, Nat.sub_diag in Hn by lia.
    simpl in Hn. injection Hn as ->. eapply Hbeh; eauto.
  - intros Hn. unfold match_end in Hn. rewrite Hi, Ht in Hn.
    rewrite app_assoc, nth_error_app2 in Hn by (rewrite length_app; lia).
    rewrite length_app, Nat.sub_diag in Hn.
    destruct rest as [|c rest']; [discriminate|]. simpl in Hn.
    injection Hn as ->. eapply Hah; eauto.
Qed.

(** X2.  A match never takes a dollar out of a pair: in the text, the code
    unit before its opening dollar and the code unit after its closing
    dollar are not dollars.  [$$formula$$] and [$$ formula $$] give no
    match. *)
Theorem X2_no_match_on_doubled_dollars {H : Host} :
  (forall text w,
      exists ms w',
        scanAll text w = Some (ms, w') /\
        Forall (fun m =>
                  (forall i, S i = index m -> nth_error text i <> Some DOLLAR) /\
                  nth_error text (match_end m) <> Some DOLLAR) ms) /\
  (forall w, exists w', scanAll (js "$$formula$$") w = Some ([], w')) /\
  (forall w, exists w', scanAll (js "$$ formula $$") w = Some ([], w')).
Proof.
  split.
  - apply (scanAll_Forall
             (fun text m =>
                (forall i, S i = index m -> nth_error text i <> Some DOLLAR) /\
                nth_error text (match_end m) <> Some DOLLAR)).
    intros text lo m. apply tolerant_not_doubled.
  - split; intros w; apply scanAll_eval; vm_compute; reflexivity.
Qed.

Lemma includes_In s c : In c s -> includes s [c] = true.
Proof.
  induction s as [|x s IH]; intros Hin; [contradiction|].
  cbn [includes starts_with]. rewrite andb_true_r.
  destruct Hin as [->|Hin].
  - unfold char_eqb. now rewrite N.eqb_refl.
  - rewrite IH by auto. apply orb_true_r.
Qed.

Lemma no_dollar_no_match text :
  includes text (js "$") = false -> matchAll text = [].
Proof.
  intros Hinc. pose proof (matchAll_chain text) as Hc.
  destruct (matchAll text) as [|m ms]; auto. destruct Hc as [Ht _].
  destruct Ht as [pre l r rest Ht _ _ Hm0 _ _ _ _ _ _ _ _].
  assert (Hin : In DOLLAR text).
  { rewrite Ht, Hm0. apply in_or_app. right. now left. }
  apply includes_In in Hin. change (js "$") with [DOLLAR] in Hinc. congruence.
Qed.

(** X5.  The pre-filter of [acceptNode] loses nothing: on a text without a
    dollar a scan finds no match, and [replaceTextNodeWithMath], had it
    been called, would return false, make no edit and call nothing. *)
Theorem X5_prefilter_loses_nothing {H : Host} text parentNode w :
  includes text (js "$") = false ->
  (exists w', scanAll text w = Some ([], w')) /\
  replaceTextNodeWithMath text parentNode w =
  Some ((false, None), mkWorld 0 (mathjax w) (calls w)).
Proof.
  intros Hinc. apply no_dollar_no_match in Hinc. split.
  - now apply scanAll_eval.
  - rewrite replaceTextNodeWithMath_spec, Hinc. simpl.
    now rewrite app_nil_r.
Qed.

Lemma X5_witness :
  @replaceTextNodeWithMath toyHost (js "no formula here") true toyWorld =
  Some ((false, None), @mkWorld toyHost 0 0 []).
Proof.
  apply (proj2 (@X5_prefilter_loses_nothing toyHost (js "no formula here")
                  true toyWorld eq_refl)).
Defined.

(** ** The engine misses nothing *)

Section EngineComplete.
Variable R : Type.

Lemma star_greedy_complete a (k : Cont R) cap :
  forall w b af,
    Forall (fun c => accepts a c = true) w ->
    (exists res, k (mkPos (rev w ++ b) af) cap = Some res) ->
    exists res, star_greedy a b (w ++ af) cap k = Some res.
Proof.
  induction w as [|c w IH]; intros b af Hall Hk; simpl.
  - destruct af as [|c af]; simpl; auto.
    destruct (accepts a c); auto.
    destruct (star_greedy a (c :: b) af cap k); eauto.
  - inversion Hall as [|? ? Hc Hw]; subst. rewrite Hc.
    destruct (IH (c :: b) af Hw) as (res & Hres).
    + simpl in Hk. now rewrite <- app_assoc in Hk.
    + rewrite Hres. eauto.
Qed.

Lemma star_lazy_complete a (k : Cont R) cap :
  forall w b af,
    Forall (fun c => accepts a c = true) w ->
    (exists res, k (mkPos (rev w ++ b) af) cap = Some res) ->
    exists res, star_lazy a b (w ++ af) cap k = Some res.
Proof.
  induction w as [|c w IH]; intros b af Hall (res & Hk); simpl in *.
  - destruct af; simpl; rewrite Hk; eauto.
  - inversion Hall as [|? ? Hc Hw]; subst.
    destruct (k (mkPos b (c :: w ++ af)) cap); eauto.
    rewrite Hc. apply IH; auto. exists res. now rewrite <- app_assoc in Hk.
Qed.
End EngineComplete.

(** Whatever the declarative reading accepts, with a continuation that
    goes through, the engine accepts something. *)
Lemma run_complete r b w af cap cap' :
  Sem r b w af cap cap' ->
  forall (R : Type) (k : Cont R),
    (exists res, k (mkPos (rev w ++ b) af) cap' = Some res) ->
    exists res, run r (mkPos b (w ++ af)) cap k = Some res.
Proof.
  induction 1 as [a b c af cap Hc|a b w af cap Hne Hall|a b w af cap Hne Hall
                 |r b w af cap cap' Hs IH
                 |r1 r2 b w1 w2 af cap c1 c2 Hs1 IH1 Hs2 IH2
                 |a b af cap Hb|a b af cap Ha]; intros R k Hk; simpl.
  - now rewrite Hc.
  - destruct w as [|c w]; [congruence|]. inversion Hall as [|? ? Hc Hw]; subst.
    simpl. rewrite Hc. apply star_greedy_complete; auto.
    simpl in Hk. now rewrite <- app_assoc in Hk.
  - destruct w as [|c w]; [congruence|]. inversion Hall as [|? ? Hc Hw]; subst.
    simpl. rewrite Hc. apply star_lazy_complete; auto.
    simpl in Hk. now rewrite <- app_assoc in Hk.
  - apply IH. now rewrite between_app.
  - rewrite <- app_assoc. apply IH1. apply IH2.
    now rewrite rev_app_distr, <- app_assoc in Hk.
  - destruct b as [|c b']; auto. now rewrite (Hb c b' eq_refl).
  - destruct af as [|c af']; auto. now rewrite (Ha c af' eq_refl).
Qed.

Lemma is_hspace_intro c : c = SPACE \/ c = TAB -> is_hspace c = true.
Proof. intros [->| ->]; reflexivity. Qed.

Lemma is_body_intro c : c <> DOLLAR /\ c <> NEWLINE -> is_body c = true.
Proof.
  intros [Hd Hn]. unfold is_body. simpl.
  apply negb_true_iff. rewrite !orb_false_iff. repeat split; auto.
  - apply N.eqb_neq. exact Hd.
  - apply N.eqb_neq. exact Hn.
Qed.

(** A spaced formula, read declaratively. *)
Lemma tolerant_span_sem b padL body padR rest :
  padL <> [] -> Forall (fun c => is_hspace c = true) padL ->
  body <> [] -> Forall (fun c => is_body c = true) body ->
  padR <> [] -> Forall (fun c => is_hspace c = true) padR ->
  (forall c b', b = c :: b' -> c <> DOLLAR) ->
  (forall c r, rest = c :: r -> c <> DOLLAR) ->
  Sem TOLERANT_MATH_REGEX b (DOLLAR :: padL ++ body ++ padR ++ [DOLLAR]) rest
      None (Some body).
Proof.
  intros HL HLo HB HBo HR HRo Hbeh Hah. unfold TOLERANT_MATH_REGEX.
  change (DOLLAR :: padL ++ body ++ padR ++ [DOLLAR])
    with ([] ++ [DOLLAR] ++ padL ++ body ++ padR ++ [DOLLAR]).
  replace (padL ++ body ++ padR ++ [DOLLAR])
    with (padL ++ body ++ padR ++ [DOLLAR] ++ []) by now rewrite app_nil_r.
  apply SemSeq with (c1 := None).
  { constructor. intros c b' Hb. apply N.eqb_neq. eapply Hbeh; eauto. }
  apply SemSeq with (c1 := None); [now constructor|].
  apply SemSeq with (c1 := None); [now constructor|].
  apply SemSeq with (c1 := Some body).
  { apply SemGroup with (cap' := None). now constructor. }
  apply SemSeq with (c1 := Some body); [now constructor|].
  apply SemSeq with (c1 := Some body); [now constructor|].
  constructor. intros c r Hr. apply N.eqb_neq. eapply Hah; eauto.
Qed.

Lemma search_complete r :
  forall pre b af,
    (exists res, match_at r (mkPos (rev pre ++ b) af) = Some res) ->
    exists m, search r b (pre ++ af) = Some m /\ index m <= length b + length pre.
Proof.
  induction pre as [|c pre IH]; intros b af (res & Hm); simpl in *.
  - destruct af; simpl; rewrite Hm; destruct res; eexists; split;
      try reflexivity; simpl; lia.
  - destruct (match_at r (mkPos b (c :: pre ++ af))) as [[q cap]|].
    + eexists. split; [reflexivity|]. simpl. lia.
    + destruct (IH (c :: b) af) as (m & Hs & Hi).
      * exists res. now rewrite <- app_assoc in Hm.
      * exists m. split; auto. simpl in Hi. lia.
Qed.

(** X3.  The scan has no false negative: if the text holds a spaced
    formula anywhere (a dollar not after a dollar, spaces or tabs, a body
    without dollar or newline, spaces or tabs, a dollar not before a
    dollar), the scan returns at least one match, and its first match
    starts at that formula or before it. *)
Theorem X3_a_spaced_formula_is_never_missed {H : Host}
        text pre padL body padR rest w :
  text = pre ++ [DOLLAR] ++ padL ++ body ++ padR ++ [DOLLAR] ++ rest ->
  padL <> [] -> Forall (fun c => c = SPACE \/ c = TAB) padL ->
  body <> [] -> Forall (fun c => c <> DOLLAR /\ c <> NEWLINE) body ->
  padR <> [] -> Forall (fun c => c = SPACE \/ c = TAB) padR ->
  (forall c p, pre = p ++ [c] -> c <> DOLLAR) ->
  (forall c r, rest = c :: r -> c <> DOLLAR) ->
  exists m ms w',
    scanAll text w = Some (m :: ms, w') /\ index m <= length pre.
Proof.
  intros Ht HL HLo HB HBo HR HRo Hbeh Hah.
  assert (Hsem : Sem TOLERANT_MATH_REGEX (rev pre)
                     (DOLLAR :: padL ++ body ++ padR ++ [DOLLAR]) rest
                     None (Some body)).
  { apply tolerant_span_sem; auto.
    - eapply Forall_impl; [|exact HLo]. apply is_hspace_intro.
    - eapply Forall_impl; [|exact HBo]. apply is_body_intro.
    - eapply Forall_impl; [|exact HRo]. apply is_hspace_intro.
    - intros c b' Hb. apply (Hbeh c (rev b')).
      apply (f_equal (@rev _)) in Hb. rewrite rev_involutive in Hb.
      now rewrite Hb. }
  destruct (@run_complete _ _ _ _ _ _ Hsem _ (fun q cap => Some (q, cap)))
    as (res & Hrun); [eauto|].
  destruct (@search_complete TOLERANT_MATH_REGEX pre []
              ((DOLLAR :: padL ++ body ++ padR ++ [DOLLAR]) ++ rest))
    as (m & Hs & Hi).
  { exists res. rewrite app_nil_r. exact Hrun. }
  rewrite scanAll_spec. unfold matchAll. cbn [scan].
  unfold search_from. cbn [firstn skipn rev].
  replace text with (pre ++ (DOLLAR :: padL ++ body ++ padR ++ [DOLLAR]) ++ rest).
  2:{ rewrite Ht. simpl. now rewrite <- !app_assoc. }
  rewrite Hs. do 3 eexists. split; [reflexivity|]. simpl in Hi. exact Hi.
Qed.

Lemma X3_witness :
  exists m ms w',
    @scanAll toyHost (js "see $ x $ here") toyWorld = Some (m :: ms, w') /\
    index m <= 4.
Proof.
  apply (@X3_a_spaced_formula_is_never_missed toyHost (js "see $ x $ here")
           (js "see ") (js " ") (js "x") (js " ") (js " here") toyWorld).
  - reflexivity.
  - discriminate.
  - repeat constructor.
  - discriminate.
  - repeat constructor; discriminate.
  - discriminate.
  - repeat constructor.
  - intros c p Hp. apply (f_equal (@rev _)) in Hp.
    rewrite rev_app_distr in Hp. simpl in Hp. injection Hp as <- _.
    discriminate.
  - intros c r Hr. injection Hr as <- _. discriminate.
Defined.

(** ** A formula on its own *)

Section EnginePriority.
Variable R : Type.

(** The greedy loop, when the continuation goes through after the longest
    run, stops there. *)
Lemma star_greedy_takes_all a (k : Cont R) cap res :
  forall w b af,
    Forall (fun c => accepts a c = true) w ->
    (forall c af', af = c :: af' -> accepts a c = false) ->
    k (mkPos (rev w ++ b) af) cap = Some res ->
    star_greedy a b (w ++ af) cap k = Some res.
Proof.
  induction w as [|c w IH]; intros b af Hall Hstop Hk;
    cbn [star_greedy app rev] in *.
  - destruct af as [|c af']; cbn [star_greedy]; auto.
    now rewrite (Hstop c af' eq_refl).
  - inversion Hall as [|? ? Hc Hw]; subst. rewrite Hc.
    rewrite (IH (c :: b) af Hw Hstop); auto. now rewrite <- app_assoc in Hk.
Qed.

(** The lazy loop stops at the first length the continuation accepts. *)
Lemma star_lazy_first a (k : Cont R) cap res :
  forall w b af,
    Forall (fun c => accepts a c = true) w ->
    (forall w1 w2, w = w1 ++ w2 -> w2 <> [] ->
                   k (mkPos (rev w1 ++ b) (w2 ++ af)) cap = None) ->
    k (mkPos (rev w ++ b) af) cap = Some res ->
    star_lazy a b (w ++ af) cap k = Some res.
Proof.
  induction w as [|c w IH]; intros b af Hall Hfail Hk;
    cbn [star_lazy app rev] in *.
  - destruct af; cbn [star_lazy]; now rewrite Hk.
  - inversion Hall as [|? ? Hc Hw]; subst.
    assert (H0 : k (mkPos b (c :: w ++ af)) cap = None)
      by (apply (Hfail [] (c :: w) eq_refl); discriminate).
    rewrite H0, Hc.
    apply IH; auto.
    + intros w1 w2 Hw12 Hne. specialize (Hfail (c :: w1) w2).
      simpl in Hfail. rewrite <- app_assoc in Hfail. simpl in Hfail.
      apply Hfail; auto. now rewrite Hw12.
    + now rewrite <- app_assoc in Hk.
Qed.
End EnginePriority.

Lemma split_first (x : char) :
  forall l1 l2 r1 r2,
    ~ In x l1 -> ~ In x l2 -> l1 ++ x :: r1 = l2 ++ x :: r2 -> l1 = l2.
Proof.
  induction l1 as [|a l1 IH]; intros [|b l2] r1 r2 H1 H2 Heq; simpl in *; auto.
  - injection Heq as <- _. tauto.
  - injection Heq as -> _. tauto.
  - injection Heq as <- Heq. f_equal. eapply IH; eauto.
Qed.

Lemma hspace_not_dollar l :
  Forall (fun c => is_hspace c = true) l -> ~ In DOLLAR l.
Proof.
  intros Hall Hin. rewrite Forall_forall in Hall. apply Hall in Hin.
  discriminate.
Qed.

Lemma body_not_dollar l :
  Forall (fun c => is_body c = true) l -> ~ In DOLLAR l.
Proof.
  intros Hall Hin. rewrite Forall_forall in Hall. apply Hall in Hin.
  discriminate.
Qed.

(** After a part of the body that stops before its last code unit, the
    closing padding cannot start. *)
Lemma closing_fails_inside_body b w2 padR rest cap :
  w2 <> [] ->
  Forall (fun c => is_body c = true) w2 ->
  (forall p c, w2 = p ++ [c] -> is_hspace c = false) ->
  Forall (fun c => is_hspace c = true) padR ->
  run (Plus (Cls [SPACE; TAB]) +> One (Chr DOLLAR) +> NotAhead (Chr DOLLAR))%regex
      (mkPos b (w2 ++ padR ++ DOLLAR :: rest)) cap
      (fun q c => Some (q, c)) = None.
Proof.
  intros Hne Hbody Hlast HR.
  destruct (run _ _ _ _) as [res|] eqn:Hrun; auto. exfalso.
  apply run_sound in Hrun. destruct Hrun as (w & af' & cap' & Haf & Hsem & _).
  inversion Hsem as [| | | |r1 r2 b0 hs w' af0 cap0 c1 c2 Hs1 Hs2| |]; subst.
  inversion Hs1 as [|a0 b0 w0 af0 cap0 Hhs Hall| | | | |]; subst.
  inversion Hs2 as [| | | |r1 r2 b0 d w'' af0 cap0 c1' c2' Hd Hna| |]; subst.
  inversion Hd as [a0 b0 c af0 cap0 Hc| | | | | |]; subst.
  inversion Hna; subst.
  apply accepts_dollar in Hc. subst c.
  rewrite <- !app_assoc in Haf. simpl in Haf.
  rewrite app_assoc in Haf.
  apply split_first in Haf.
  - destruct (exists_last Hne) as (p & c & Hp).
    assert (Hin : In c hs).
    { rewrite <- Haf, Hp. rewrite !in_app_iff. left. right. now left. }
    rewrite Forall_forall in Hall. apply Hall in Hin.
    pose proof (Hlast p c Hp) as Hl. unfold is_hspace in Hl. congruence.
  - intros Hin. apply in_app_or in Hin. destruct Hin as [Hin|Hin].
    + now apply body_not_dollar in Hin.
    + now apply hspace_not_dollar in Hin.
  - now apply hspace_not_dollar.
Qed.

Lemma between_cons b af c w af' :
  between (mkPos b af) (mkPos (rev w ++ c :: b) af') = c :: w.
Proof.
  replace (rev w ++ c :: b) with (rev (c :: w) ++ b)
    by (simpl; now rewrite <- app_assoc).
  apply between_app.
Qed.

(** One attempt at the opening dollar of a spaced formula whose body
    neither starts nor ends with a space or tab: the whole formula is
    matched and the capture is the body. *)
Lemma match_at_exact b padL body padR rest :
  padL <> [] -> Forall (fun c => is_hspace c = true) padL ->
  body <> [] -> Forall (fun c => is_body c = true) body ->
  (forall c s, body = c :: s -> is_hspace c = false) ->
  (forall p c, body = p ++ [c] -> is_hspace c = false) ->
  padR <> [] -> Forall (fun c => is_hspace c = true) padR ->
  (forall c b', b = c :: b' -> c <> DOLLAR) ->
  (forall c r, rest = c :: r -> c <> DOLLAR) ->
  match_at TOLERANT_MATH_REGEX
           (mkPos b (DOLLAR :: padL ++ body ++ padR ++ DOLLAR :: rest)) =
  Some (mkPos (rev (DOLLAR :: padL ++ body ++ padR ++ [DOLLAR]) ++ b) rest,
        Some body).
Proof.
  intros HL HLo HB HBo Hfirst Hlast HR HRo Hbeh Hah.
  unfold match_at, TOLERANT_MATH_REGEX. cbn [run before after].
  assert (Hb : match b with
               | [] => True
               | c :: _ => accepts (Chr DOLLAR) c = false
               end).
  { destruct b as [|c b']; auto. apply N.eqb_neq. eapply Hbeh; eauto. }
  assert (Hr : match rest with
               | [] => True
               | c :: _ => accepts (Chr DOLLAR) c = false
               end).
  { destruct rest as [|c r']; auto. apply N.eqb_neq. eapply Hah; eauto. }
  destruct padL as [|c1 padL]; [congruence|].
  destruct body as [|cb body]; [congruence|].
  destruct padR as [|c2 padR]; [congruence|].
  inversion HLo as [|? ? Hc1 HLo']; subst.
  inversion HBo as [|? ? Hcb HBo']; subst.
  inversion HRo as [|? ? Hc2 HRo']; subst.
  unfold is_hspace, is_body in *.
  destruct b as [|c0 b0]; [|rewrite Hb].
  all: change (accepts (Chr DOLLAR) DOLLAR) with true; cbv iota.
  all: cbn [app]; rewrite Hc1.
  all: apply star_greedy_takes_all; auto.
  all: try (intros c af' Haf; injection Haf as <- _; eapply Hfirst; eauto).
  all: cbn [run before after]; rewrite Hcb.
  all: apply star_lazy_first; auto.
  all: try (intros w1 w2 Hw Hne; cbn [run];
            apply (@closing_fails_inside_body _ w2 (c2 :: padR) rest); auto;
            [ subst body; apply Forall_app in HBo'; tauto
            | intros p c Hp; apply (Hlast ((cb :: w1) ++ p) c);
              subst body w2; simpl; now rewrite <- app_assoc ]).
  all: cbn [run before after app]; rewrite Hc2.
  all: apply star_greedy_takes_all; auto.
  all: try (intros c af' Haf; injection Haf as <- _; reflexivity).
  all: cbn [run before after];
    change (accepts (Chr DOLLAR) DOLLAR) with true; cbv iota.
  all: rewrite between_cons.
  all: destruct rest as [|cr rest']; [|rewrite Hr].
  all: f_equal; f_equal; f_equal.
  all: repeat first [ rewrite rev_app_distr | rewrite <- app_assoc
                    | progress cbn [rev app] ]; reflexivity.
Qed.

Lemma match_at_no_dollar b c af :
  c <> DOLLAR -> match_at TOLERANT_MATH_REGEX (mkPos b (c :: af)) = None.
Proof.
  intros Hc. unfold match_at, TOLERANT_MATH_REGEX. cbn [run before after].
  replace (accepts (Chr DOLLAR) c) with false
    by (symmetry; apply N.eqb_neq; exact Hc).
  destruct b as [|c0 b0]; auto. now destruct (accepts (Chr DOLLAR) c0).
Qed.

Lemma match_at_end b : match_at TOLERANT_MATH_REGEX (mkPos b []) = None.
Proof.
  unfold match_at, TOLERANT_MATH_REGEX. cbn [run before after].
  destruct b as [|c0 b0]; auto. now destruct (accepts (Chr DOLLAR) c0).
Qed.

Lemma search_skip :
  forall pre b af,
    ~ In DOLLAR pre ->
    search TOLERANT_MATH_REGEX b (pre ++ af) =
    search TOLERANT_MATH_REGEX (rev pre ++ b) af.
Proof.
  induction pre as [|c pre IH]; intros b af Hno; auto.
  cbn [app search]. rewrite match_at_no_dollar by (intros ->; apply Hno; now left).
  rewrite IH by (intros Hin; apply Hno; now right).
  cbn [rev]. now rewrite <- app_assoc.
Qed.

Lemma search_no_dollar b af :
  ~ In DOLLAR af -> search TOLERANT_MATH_REGEX b af = None.
Proof.
  intros Hno. rewrite <- (app_nil_r af), search_skip by auto.
  cbn [search]. now rewrite match_at_end.
Qed.

Lemma not_hspace c : c <> SPACE /\ c <> TAB -> is_hspace c = false.
Proof.
  intros [Hs Ht]. unfold is_hspace. simpl. rewrite !orb_false_iff.
  repeat split; auto; apply N.eqb_neq; auto.
Qed.

(** The scan of a text with a single spaced formula in it. *)
Lemma matchAll_single pre padL body padR rest :
  ~ In DOLLAR pre -> ~ In DOLLAR rest ->
  padL <> [] -> Forall (fun c => c = SPACE \/ c = TAB) padL ->
  body <> [] -> Forall (fun c => c <> DOLLAR /\ c <> NEWLINE) body ->
  (forall c s, body = c :: s -> c <> SPACE /\ c <> TAB) ->
  (forall p c, body = p ++ [c] -> c <> SPACE /\ c <> TAB) ->
  padR <> [] -> Forall (fun c => c = SPACE \/ c = TAB) padR ->
  matchAll (pre ++ (DOLLAR :: padL ++ body ++ padR ++ [DOLLAR]) ++ rest) =
  [mkMatch (length pre) (DOLLAR :: padL ++ body ++ padR ++ [DOLLAR]) body].
Proof.
  intros Hpre Hrest HL HLo HB HBo Hfirst Hlast HR HRo.
  set (span := DOLLAR :: padL ++ body ++ padR ++ [DOLLAR]).
  set (text := pre ++ span ++ rest).
  assert (Hm : match_at TOLERANT_MATH_REGEX (mkPos (rev pre) (span ++ rest)) =
               Some (mkPos (rev span ++ rev pre) rest, Some body)).
  { replace (span ++ rest)
      with (DOLLAR :: padL ++ body ++ padR ++ DOLLAR :: rest)
      by (unfold span; simpl; now rewrite <- !app_assoc).
    apply match_at_exact; auto.
    - eapply Forall_impl; [|exact HLo]. apply is_hspace_intro.
    - eapply Forall_impl; [|exact HBo]. apply is_body_intro.
    - intros c s0 Hb. apply not_hspace. eapply Hfirst; eauto.
    - intros p c Hb. apply not_hspace. eapply Hlast; eauto.
    - eapply Forall_impl; [|exact HRo]. apply is_hspace_intro.
    - intros c b' Hb Hc. subst c. apply Hpre. apply in_rev. rewrite Hb.
      now left.
    - intros c r Hr Hc. subst c rest. apply Hrest. now left. }
  assert (Hfirst_search :
            search_from TOLERANT_MATH_REGEX text 0 =
            Some (mkMatch (length pre) span body)).
  { unfold search_from, text. cbn [firstn skipn rev].
    rewrite search_skip by auto. rewrite app_nil_r.
    unfold span at 1. cbn [app search]. fold span.
    change (DOLLAR :: (padL ++ body ++ padR ++ [DOLLAR]) ++ rest)
      with (span ++ rest).
    rewrite Hm. rewrite between_app, length_rev. reflexivity. }
  assert (Hnext :
            search_from TOLERANT_MATH_REGEX text (length pre + length span) = None).
  { unfold search_from, text. rewrite app_assoc.
    rewrite skipn_app, skipn_all2 by (rewrite length_app; lia).
    rewrite length_app, Nat.sub_diag. cbn [skipn app].
    now apply search_no_dollar. }
  unfold matchAll. fold text. cbn [scan]. rewrite Hfirst_search.
  unfold match_end. cbn [index m0].
  destruct (length text) as [|n] eqn:Hlen.
  - unfold text, span in Hlen. rewrite !length_app in Hlen. simpl in Hlen. lia.
  - cbn [scan]. now rewrite Hnext.
Qed.

Lemma not_nil_length A (l : list A) : (0 <? length l) = nonempty l.
Proof. now destruct l. Qed.

Lemma text_node_gap pre tl :
  (if 0 <? length pre then [TextNode (slice (pre ++ tl) 0 (length pre))] else []) =
  text_node pre.
Proof.
  destruct pre as [|c pre]; auto. unfold slice, text_node.
  cbn [length Nat.ltb Nat.leb skipn]. rewrite Nat.sub_0_r.
  change (S (length pre)) with (length (c :: pre)).
  now rewrite firstn_app, firstn_all, Nat.sub_diag, firstn_O, app_nil_r.
Qed.

Lemma text_node_tail hd rest :
  tail_of (hd ++ rest) (length hd) = text_node rest.
Proof.
  unfold tail_of, slice_from. rewrite length_app.
  rewrite skipn_app, skipn_all, Nat.sub_diag. cbn [skipn app].
  destruct rest as [|c rest]; simpl.
  - rewrite Nat.add_0_r, Nat.ltb_irrefl. reflexivity.
  - destruct (Nat.ltb_spec (length hd) (length hd + S (length rest))); auto. lia.
Qed.

(** X4.  A text with one spaced formula and no other dollar (the formula's
    body free of dollar and newline and neither starting nor ending with a
    space or tab) is scanned to exactly one match: it starts where the
    formula starts, it is the whole formula, and its capture is the body.
    [replaceTextNodeWithMath] makes one render call, for the trimmed
    body; if that returns, the text node is replaced by the text before,
    the element (given the class [tolerant-math-inline]) and the text
    after; if it throws, nothing is replaced. *)
Theorem X4_a_lone_formula_is_matched_exactly {H : Host}
        pre padL body padR rest parentNode w :
  ~ In DOLLAR pre -> ~ In DOLLAR rest ->
  padL <> [] -> Forall (fun c => c = SPACE \/ c = TAB) padL ->
  body <> [] -> Forall (fun c => c <> DOLLAR /\ c <> NEWLINE) body ->
  (forall c s, body = c :: s -> c <> SPACE /\ c <> TAB) ->
  (forall p c, body = p ++ [c] -> c <> SPACE /\ c <> TAB) ->
  padR <> [] -> Forall (fun c => c = SPACE \/ c = TAB) padR ->
  let span := DOLLAR :: padL ++ body ++ padR ++ [DOLLAR] in
  let text := pre ++ span ++ rest in
  let r := fst (host_renderMath (trim body) false (mathjax w)) in
  (exists w',
      scanAll text w = Some ([mkMatch (length pre) span body], w')) /\
  (exists w',
      replaceTextNodeWithMath text parentNode w =
      Some ((returned r,
             match r with
             | Some mathEl =>
                 if parentNode
                 then Some (text_node pre ++
                            [node_of (classList_add mathEl
                                        (js "tolerant-math-inline"))] ++
                            text_node rest)
                 else None
             | None => None
             end), w') /\
      calls w' = calls w ++ [RenderMath (trim body) false (returned r)]).
Proof.
  intros Hpre Hrest HL HLo HB HBo Hfirst Hlast HR HRo span text r.
  pose proof (@matchAll_single pre padL body padR rest Hpre Hrest HL HLo HB HBo
                Hfirst Hlast HR HRo) as Hall.
  fold span in Hall. fold text in Hall. split.
  - now apply scanAll_eval.
  - rewrite replaceTextNodeWithMath_spec, Hall. cbn [outcomes m1].
    subst r. destruct (host_renderMath (trim body) false (mathjax w)) as [r mj'].
    cbn [fst]. cbv zeta.
    exists (mkWorld 0 mj' (calls w ++ [RenderMath (trim body) false (returned r)])).
    split; [|reflexivity].
    cbn [existsb snd orb assemble end_of fold_left fst map call_of m1].
    rewrite orb_false_r.
    unfold gap, match_end. cbn [index m0 unit_of].
    unfold text at 1 2. rewrite text_node_gap.
    rewrite (app_assoc pre span rest), <- length_app, text_node_tail.
    unfold call_of. cbn [fst snd m1].
    destruct r as [el|]; cbn [returned andb unit_of]; auto.
    destruct parentNode; cbn [andb]; auto.
    now rewrite <- app_assoc.
Qed.

Lemma X4_witness :
  exists w',
    @scanAll toyHost (js "mass: $ E = mc^2	$.") toyWorld =
    Some ([mkMatch 6 (js "$ E = mc^2	$") (js "E = mc^2")], w').
Proof.
  apply (proj1 (@X4_a_lone_formula_is_matched_exactly toyHost
                  (js "mass: ") (js " ") (js "E = mc^2") [TAB] (js ".")
                  true toyWorld
                  ltac:(simpl; intuition discriminate)
                  ltac:(simpl; intuition discriminate)
                  ltac:(discriminate)
                  ltac:(repeat constructor)
                  ltac:(discriminate)
                  ltac:(repeat constructor; discriminate)
                  ltac:(intros c s Hb; injection Hb as <- _; split; discriminate)
                  ltac:(intros p c Hb; apply (f_equal (@rev _)) in Hb;
                        rewrite rev_app_distr in Hb; simpl in Hb;
                        injection Hb as <- _; split; discriminate)
                  ltac:(discriminate)
                  ltac:(constructor; [now right | constructor]))).
Defined.

(** ** Two formulas on one line *)

Lemma last_of_app A (l1 l2 p : list A) c :
  l2 <> [] -> l1 ++ l2 = p ++ [c] -> In c l2.
Proof.
  intros Hne Heq. destruct (exists_last Hne) as (q & c' & ->).
  rewrite app_assoc in Heq. apply app_inj_tail in Heq as [_ <-].
  apply in_or_app. right. now left.
Qed.

Lemma length_dollars padL body padR :
  length (dollars padL body padR) =
  2 + length padL + length body + length padR.
Proof. unfold dollars. simpl. rewrite !length_app. simpl. lia. Qed.

(** The search resumed at the end of [done] passes over a stretch without
    a dollar and stops at the spaced formula behind it. *)
Lemma search_from_formula done skipped padL body padR rest :
  ~ In DOLLAR skipped ->
  (forall p c, done ++ skipped = p ++ [c] -> c <> DOLLAR) ->
  (forall c r, rest = c :: r -> c <> DOLLAR) ->
  spaced padL body padR ->
  search_from TOLERANT_MATH_REGEX
    (done ++ skipped ++ dollars padL body padR ++ rest) (length done) =
  Some (mkMatch (length done + length skipped) (dollars padL body padR) body).
Proof.
  intros Hskip Hbehind Hahead (HL & HLo & HB & HBo & Hfirst & Hlast & HR & HRo).
  set (span := dollars padL body padR).
  assert (Hm : match_at TOLERANT_MATH_REGEX
                 (mkPos (rev skipped ++ rev done) (span ++ rest)) =
               Some (mkPos (rev span ++ rev skipped ++ rev done) rest,
                     Some body)).
  { replace (span ++ rest)
      with (DOLLAR :: padL ++ body ++ padR ++ DOLLAR :: rest)
      by (unfold span, dollars; simpl; now rewrite <- !app_assoc).
    apply match_at_exact; auto.
    - eapply Forall_impl; [|exact HLo]. apply is_hspace_intro.
    - eapply Forall_impl; [|exact HBo]. apply is_body_intro.
    - intros c s0 Hb. apply not_hspace. eapply Hfirst; eauto.
    - intros p c Hb. apply not_hspace. eapply Hlast; eauto.
    - eapply Forall_impl; [|exact HRo]. apply is_hspace_intro.
    - intros c b' Hb. apply (Hbehind (rev b') c).
      rewrite <- rev_app_distr in Hb. apply (f_equal (@rev _)) in Hb.
      rewrite rev_involutive in Hb. rewrite Hb. reflexivity. }
  unfold search_from.
  rewrite firstn_app, firstn_all, Nat.sub_diag, firstn_O, app_nil_r.
  rewrite skipn_app, skipn_all, Nat.sub_diag. cbn [skipn app].
  rewrite search_skip by auto.
  change (span ++ rest)
    with (DOLLAR :: (padL ++ body ++ padR ++ [DOLLAR]) ++ rest).
  cbn [search].
  change (DOLLAR :: (padL ++ body ++ padR ++ [DOLLAR]) ++ rest)
    with (span ++ rest).
  rewrite Hm, between_app, length_app, !length_rev.
  now rewrite (Nat.add_comm (length skipped)).
Qed.

(** The scan of a text with two spaced formulas, something between them
    and no other dollar. *)
Lemma matchAll_two pre padL1 body1 padR1 mid padL2 body2 padR2 rest :
  ~ In DOLLAR pre -> ~ In DOLLAR mid -> mid <> [] -> ~ In DOLLAR rest ->
  spaced padL1 body1 padR1 -> spaced padL2 body2 padR2 ->
  matchAll (pre ++ dollars padL1 body1 padR1 ++ mid ++
            dollars padL2 body2 padR2 ++ rest) =
  [mkMatch (length pre) (dollars padL1 body1 padR1) body1;
   mkMatch (length pre + length (dollars padL1 body1 padR1) + length mid)
           (dollars padL2 body2 padR2) body2].
Proof.
  intros Hpre Hmid Hne Hrest Hs1 Hs2.
  set (span1 := dollars padL1 body1 padR1).
  set (span2 := dollars padL2 body2 padR2).
  set (text := pre ++ span1 ++ mid ++ span2 ++ rest).
  assert (H1 : search_from TOLERANT_MATH_REGEX text 0 =
               Some (mkMatch (length pre) span1 body1)).
  { apply (@search_from_formula [] pre padL1 body1 padR1
                                (mid ++ span2 ++ rest)); auto.
    - intros p c Hp Hc. apply Hpre. cbn [app] in Hp. rewrite Hp, Hc.
      apply in_or_app. right. now left.
    - intros c r Hr Hc. destruct mid as [|c0 mid0]; [congruence|].
      injection Hr as <- _. apply Hmid. rewrite Hc. now left. }
  assert (H2 : search_from TOLERANT_MATH_REGEX text
                 (length pre + length span1) =
               Some (mkMatch (length pre + length span1 + length mid)
                             span2 body2)).
  { pose proof (@search_from_formula (pre ++ span1) mid padL2 body2 padR2 rest)
      as Hs.
    rewrite <- !app_assoc, length_app in Hs. apply Hs; auto.
    - intros p c Hp Hc. apply Hmid. rewrite <- Hc.
      rewrite app_assoc in Hp. eapply last_of_app; eauto.
    - intros c r Hr Hc. apply Hrest. rewrite Hr, Hc. now left. }
  assert (H3 : search_from TOLERANT_MATH_REGEX text
                 (length pre + length span1 + length mid + length span2) =
               None).
  { unfold search_from.
    replace text with ((pre ++ span1 ++ mid ++ span2) ++ rest)
      by (unfold text; now rewrite <- !app_assoc).
    replace (length pre + length span1 + length mid + length span2)
      with (length (pre ++ span1 ++ mid ++ span2))
      by (rewrite !length_app; lia).
    rewrite skipn_app, skipn_all, Nat.sub_diag. cbn [skipn app].
    now apply search_no_dollar. }
  assert (Hlen : 2 <= length text).
  { unfold text. rewrite !length_app. unfold span1.
    rewrite length_dollars. lia. }
  unfold matchAll. fold text. cbn [scan]. rewrite H1.
  unfold match_end at 1. cbn [index m0].
  destruct (length text) as [|[|n]]; [lia|lia|].
  cbn [scan]. rewrite H2. unfold match_end at 1. cbn [index m0].
  now rewrite H3.
Qed.

Lemma slice_whole (s : JsString) : slice s 0 (length s) = s.
Proof. unfold slice. cbn [skipn]. now rewrite Nat.sub_0_r, firstn_all. Qed.

(** One visible range over the whole document. *)
Lemma decorations_whole native cursors selection text tree ms :
  matchAll text = ms ->
  decorations_of native cursors
                 (mkView text selection [mkRange 0 (length text)] tree) =
  flat_map (keep native cursors 0) ms.
Proof.
  intros <-. unfold decorations_of, decorations_in, sliceString.
  cbn [visibleRanges flat_map from to doc].
  now rewrite slice_whole, app_nil_r.
Qed.

(** C5.  A text with two spaced formulas, something between them and no
    other dollar (each body free of dollar and newline and with a code unit
    other than space and tab at either end) is scanned to exactly two
    matches, in order: each starts where its formula starts, is the whole
    formula and captures exactly its body, and the first ends before the
    second begins.  A rebuild over the whole text, with no cursor at
    either formula (and, for [main.ts], no native range over either),
    gives exactly the two decorations over these spans, with the trimmed
    bodies as formulas.  So for [$ a $ and $ b $]: two matches, at [0..5)
    and [10..15), with formulas [a] and [b], and both scanners decorate
    exactly these two spans.  Whatever the text, the matches of a scan
    follow one another without overlap, and each is one formula: a dollar
    at either end and none in between, so the lazy body never runs across
    two formulas. *)
Theorem C5_two_formulas_on_one_line {H : Host} :
  (forall pre padL1 body1 padR1 mid padL2 body2 padR2 rest,
      ~ In DOLLAR pre -> ~ In DOLLAR mid -> mid <> [] -> ~ In DOLLAR rest ->
      spaced padL1 body1 padR1 -> spaced padL2 body2 padR2 ->
      let span1 := dollars padL1 body1 padR1 in
      let span2 := dollars padL2 body2 padR2 in
      let text := pre ++ span1 ++ mid ++ span2 ++ rest in
      let match1 := mkMatch (length pre) span1 body1 in
      let match2 :=
        mkMatch (length pre + length span1 + length mid) span2 body2 in
      let deco1 :=
        mkDecoration (index match1) (match_end match1) (mkWidget (trim body1)) in
      let deco2 :=
        mkDecoration (index match2) (match_end match2) (mkWidget (trim body2)) in
      (forall w, exists w', scanAll text w = Some ([match1; match2], w')) /\
      match_end match1 < index match2 /\
      match_end match2 <= length text /\
      (forall cursors tree w,
          cursorInside cursors (index match1) (match_end match1) = false ->
          cursorInside cursors (index match2) (match_end match2) = false ->
          exists w',
            MainJs.buildDecorations
              (mkView text cursors [mkRange 0 (length text)] tree) w =
            Some ([deco1; deco2], w')) /\
      (forall cursors tree w,
          let view := mkView text cursors [mkRange 0 (length text)] tree in
          let native := MainTs.nativeMathRanges view in
          cursorInside cursors (index match1) (match_end match1) = false ->
          cursorInside cursors (index match2) (match_end match2) = false ->
          overlapsNative native (index match1) (match_end match1) = false ->
          overlapsNative native (index match2) (match_end match2) = false ->
          exists w', MainTs.buildDecorations view w = Some ([deco1; deco2], w'))) /\
  (forall w,
      exists w',
        scanAll (js "$ a $ and $ b $") w =
        Some ([mkMatch 0 (js "$ a $") (js "a");
               mkMatch 10 (js "$ b $") (js "b")], w')) /\
  match_end (mkMatch 0 (js "$ a $") (js "a")) = 5 /\
  match_end (mkMatch 10 (js "$ b $") (js "b")) = 15 /\
  trim (js "a") = js "a" /\ trim (js "b") = js "b" /\
  (forall w,
      exists w',
        MainTs.buildDecorations
          (mkView (js "$ a $ and $ b $") [mkRange 7 7] [mkRange 0 15]
                  (fun _ _ => [])) w =
        Some ([mkDecoration 0 5 (mkWidget (js "a"));
               mkDecoration 10 15 (mkWidget (js "b"))], w')) /\
  (forall tree w,
      exists w',
        MainJs.buildDecorations
          (mkView (js "$ a $ and $ b $") [mkRange 7 7] [mkRange 0 15] tree) w =
        Some ([mkDecoration 0 5 (mkWidget (js "a"));
               mkDecoration 10 15 (mkWidget (js "b"))], w')) /\
  (forall text w,
      exists ms w',
        scanAll text w = Some (ms, w') /\
        separate 0 ms /\ Forall (fun m => one_formula (m0 m)) ms).
Proof.
  split.
  { intros pre padL1 body1 padR1 mid padL2 body2 padR2 rest
           Hpre Hmid Hne Hrest Hs1 Hs2 span1 span2 text match1 match2 deco1 deco2.
    pose proof (@matchAll_two pre padL1 body1 padR1 mid padL2 body2 padR2 rest
                  Hpre Hmid Hne Hrest Hs1 Hs2) as Hall.
    fold span1 span2 in Hall. fold text in Hall. fold match1 match2 in Hall.
    assert (Hmid_len : 0 < length mid)
      by (destruct mid; [congruence | simpl; lia]).
    split; [|split; [|split; [|split]]].
    - intros w. now apply scanAll_eval.
    - unfold match_end, match1, match2. cbn [index m0]. lia.
    - unfold match_end, match2, text. cbn [index m0]. rewrite !length_app. lia.
    - intros cursors tree w Hc1 Hc2.
      rewrite js_buildDecorations_spec. cbv zeta. cbn [selection_ranges].
      rewrite (@decorations_whole [] cursors cursors text tree _ Hall).
      cbn [flat_map]. unfold keep.
      cbn [overlapsNative existsb Nat.add].
      fold (match_end match1) (match_end match2).
      rewrite Hc1, Hc2. eexists. reflexivity.
    - intros cursors tree w view native Hc1 Hc2 Hn1 Hn2.
      rewrite ts_buildDecorations_spec. cbv zeta. fold native.
      change (selection_ranges view) with cursors.
      change view with (mkView text cursors [mkRange 0 (length text)] tree) at 1 2.
      rewrite (@decorations_whole native cursors cursors text tree _ Hall).
      cbn [flat_map]. unfold keep.
      cbn [Nat.add]. fold (match_end match1) (match_end match2).
      rewrite Hc1, Hc2, Hn1, Hn2. eexists. reflexivity. }
  repeat split; try reflexivity.
  - intros w. apply scanAll_eval. vm_compute. reflexivity.
  - intros w. rewrite ts_buildDecorations_spec. cbv zeta.
    eexists. reflexivity.
  - intros tree w. rewrite js_buildDecorations_spec. cbv zeta.
    eexists. reflexivity.
  - intros text w. rewrite scanAll_spec. do 2 eexists.
    split; [reflexivity|]. split.
    + apply chain_separate with (text := text). apply matchAll_chain.
    + eapply chain_Forall; [|apply matchAll_chain].
      intros lo m. apply tolerant_one_formula.
Qed.

Lemma C5_witness :
  exists w',
    @scanAll toyHost (js "$ \alpha $ and $ \beta $") toyWorld =
    Some ([mkMatch 0 (js "$ \alpha $") (js "\alpha");
           mkMatch 15 (js "$ \beta $") (js "\beta")], w').
Proof.
  refine (proj1 (proj1 (@C5_two_formulas_on_one_line toyHost)
                       [] (js " ") (js "\alpha") (js " ") (js " and ")
                       (js " ") (js "\beta") (js " ") [] _ _ _ _ _ _)
                toyWorld);
    try (simpl; intuition discriminate);
    try discriminate;
    (unfold spaced;
     refine (conj _ (conj _ (conj _ (conj _ (conj _ (conj _ (conj _ _)))))));
     [ discriminate
     | repeat constructor
     | discriminate
     | repeat constructor; discriminate
     | intros c s Hb; injection Hb as <- _; split; discriminate
     | intros p c Hb; apply (f_equal (@rev _)) in Hb;
       rewrite rev_app_distr in Hb; simpl in Hb;
       injection Hb as <- _; split; discriminate
     | discriminate
     | repeat constructor ]).
Defined.

(** ** Live Preview: what the vetoes and the ranges do *)

Lemma filter_flat_map A B (f : B -> bool) (g : A -> list B) l :
  filter f (flat_map g l) = flat_map (fun x => filter f (g x)) l.
Proof.
  induction l as [|x l IH]; simpl; auto. now rewrite filter_app, IH.
Qed.

Lemma keep_selection native cursors start m :
  keep native cursors start m =
  filter (fun d => negb (cursorInside cursors (deco_from d) (deco_to d)))
         (keep native [] start m).
Proof.
  unfold keep. destruct (overlapsNative _ _ _); auto. simpl.
  now destruct (cursorInside _ _ _).
Qed.

Lemma keep_native native cursors start m :
  keep native cursors start m =
  filter (fun d => negb (overlapsNative native (deco_from d) (deco_to d)))
         (keep [] cursors start m).
Proof.
  unfold keep. simpl.
  destruct (cursorInside _ _ _); simpl; destruct (overlapsNative _ _ _); auto.
Qed.

Lemma decorations_of_selection native cursors view :
  decorations_of native cursors view =
  filter (fun d => negb (cursorInside cursors (deco_from d) (deco_to d)))
         (decorations_of native [] view).
Proof.
  unfold decorations_of, decorations_in. rewrite filter_flat_map.
  apply flat_map_ext. intros r. rewrite filter_flat_map.
  apply flat_map_ext. intros m. apply keep_selection.
Qed.

Lemma decorations_of_native native cursors view :
  decorations_of native cursors view =
  filter (fun d => negb (overlapsNative native (deco_from d) (deco_to d)))
         (decorations_of [] cursors view).
Proof.
  unfold decorations_of, decorations_in. rewrite filter_flat_map.
  apply flat_map_ext. intros r. rewrite filter_flat_map.
  apply flat_map_ext. intros m. apply keep_native.
Qed.

(** X9.  The selection only hides decorations: what a rebuild returns is
    what it would return without any selection, less the decorations a
    selection range meets; the others are the same, in the same order.  So
    moving the cursor away brings a formula back and changes nothing
    else. *)
Theorem X9_selection_only_hides {H : Host} :
  forall view w,
    (exists ds ds0 w' w0',
        MainJs.buildDecorations view w = Some (ds, w') /\
        MainJs.buildDecorations (with_selection view []) w = Some (ds0, w0') /\
        ds = filter (fun d => negb (cursorInside (selection_ranges view)
                                                 (deco_from d) (deco_to d))) ds0) /\
    (exists ds ds0 w' w0',
        MainTs.buildDecorations view w = Some (ds, w') /\
        MainTs.buildDecorations (with_selection view []) w = Some (ds0, w0') /\
        ds = filter (fun d => negb (cursorInside (selection_ranges view)
                                                 (deco_from d) (deco_to d))) ds0).
Proof.
  intros view w. split.
  - rewrite !js_buildDecorations_spec. cbv zeta. do 4 eexists.
    split; [reflexivity|]. split; [reflexivity|].
    exact (decorations_of_selection [] (selection_ranges view) view).
  - rewrite !ts_buildDecorations_spec. cbv zeta. do 4 eexists.
    split; [reflexivity|]. split; [reflexivity|].
    exact (decorations_of_selection (MainTs.nativeMathRanges view)
                                    (selection_ranges view) view).
Qed.

(** X10.  The two files differ by the native veto and by nothing else: on
    the same view, [src/main.ts] returns the decorations of [main.js] that
    overlap no collected native range, in the same order. *)
Theorem X10_source_is_build_less_native_overlaps {H : Host} :
  forall view w,
    exists ds_ts ds_js w' w'',
      MainTs.buildDecorations view w = Some (ds_ts, w') /\
      MainJs.buildDecorations view w = Some (ds_js, w'') /\
      ds_ts = filter (fun d => negb (overlapsNative (MainTs.nativeMathRanges view)
                                                    (deco_from d) (deco_to d)))
                     ds_js.
Proof.
  intros view w. rewrite js_buildDecorations_spec, ts_buildDecorations_spec.
  cbv zeta. do 4 eexists. split; [reflexivity|]. split; [reflexivity|].
  apply decorations_of_native.
Qed.

Lemma slice_slice (s : JsString) a b i j :
  j <= length (slice s a b) -> slice (slice s a b) i j = slice s (a + i) (a + j).
Proof.
  unfold slice. rewrite length_firstn. intros Hj.
  rewrite skipn_firstn_comm, firstn_firstn, skipn_skipn.
  replace (Nat.min (j - i) (b - a - i)) with (j - i) by lia.
  replace (a + j - (a + i)) with (j - i) by lia.
  now rewrite Nat.add_comm.
Qed.

Lemma length_slice (s : JsString) a b :
  length (slice s a b) <= b - a /\ a + length (slice s a b) <= Nat.max a (length s).
Proof.
  unfold slice. rewrite length_firstn, length_skipn. lia.
Qed.

(** What one decoration of a visible range is. *)
Lemma keep_span native cursors view r m d :
  tolerant (sliceString view (from r) (to r)) 0 m ->
  In d (keep native cursors (from r) m) ->
  from r <= deco_from d /\ deco_to d <= to r /\ deco_to d <= length (doc view) /\
  slice (doc view) (deco_from d) (deco_to d) = m0 m /\
  formula (widget d) = trim (m1 m).
Proof.
  intros Ht Hin. unfold keep in Hin.
  destruct (overlapsNative _ _ _); [contradiction|].
  destruct (cursorInside _ _ _); [contradiction|].
  destruct Hin as [<-|[]]. cbn [deco_from deco_to widget formula].
  pose proof (tolerant_bounds Ht) as (_ & H2 & H3).
  pose proof (length_slice (doc view) (from r) (to r)) as [L1 L2].
  unfold sliceString in *. unfold match_end in *.
  repeat split; try lia.
  transitivity (slice (slice (doc view) (from r) (to r)) (index m)
                      (index m + length (m0 m))).
  - rewrite slice_slice by lia. f_equal. lia.
  - symmetry. apply (tolerant_slice Ht).
Qed.

Lemma decorations_of_span native cursors view :
  Forall (spans_formula view) (decorations_of native cursors view).
Proof.
  apply Forall_forall. intros d Hd.
  unfold decorations_of, decorations_in in Hd.
  apply in_flat_map in Hd. destruct Hd as (r & Hr & Hd).
  apply in_flat_map in Hd. destruct Hd as (m & Hm & Hd).
  assert (Ht : tolerant (sliceString view (from r) (to r)) 0 m)
    by (eapply chain_In; [apply matchAll_chain | exact Hm]).
  destruct (@keep_span _ _ _ _ _ _ Ht Hd) as (H1 & H2 & H3 & H4 & H5).
  split; [eauto|]. split; [auto|].
  destruct Ht as [pre l rr rest _ _ _ Hm0 Hl Hlo Hb Hbo Hrr Hro _ _].
  exists l, (m1 m), rr. rewrite H4, H5. repeat split; auto.
  - eapply Forall_impl; [|exact Hlo]. apply is_hspace_spec.
  - eapply Forall_impl; [|exact Hbo]. apply is_body_spec.
  - eapply Forall_impl; [|exact Hro]. apply is_hspace_spec.
Qed.

(** X11.  Every decoration of a rebuild, by either file, lies inside one of
    the visible ranges and inside the document, and replaces exactly a
    spaced formula of the document: the text it spans is a dollar, spaces
    or tabs, a body without dollar or newline, spaces or tabs, a dollar;
    the formula of its widget is that body trimmed. *)
Theorem X11_decorations_span_spaced_formulas {H : Host} :
  forall view w,
    (exists ds w',
        MainJs.buildDecorations view w = Some (ds, w') /\
        Forall (spans_formula view) ds) /\
    (exists ds w',
        MainTs.buildDecorations view w = Some (ds, w') /\
        Forall (spans_formula view) ds).
Proof.
  intros view w. split.
  - rewrite js_buildDecorations_spec. cbv zeta.
    do 2 eexists. split; [reflexivity|]. apply decorations_of_span.
  - rewrite ts_buildDecorations_spec. cbv zeta.
    do 2 eexists. split; [reflexivity|]. apply decorations_of_span.
Qed.

(** X12.  A rebuild never calls [renderMath] (the widgets render later, in
    [toDOM]): its only call to the host is one [finishRenderMath], made
    when it returns at least one decoration.  With no visible range it
    returns no decoration and leaves everything as it was; otherwise it
    leaves [lastIndex] at 0. *)
Theorem X12_rebuild_flushes_once_iff_decorated {H : Host} :
  forall view w,
    (exists ds w',
        MainJs.buildDecorations view w = Some (ds, w') /\
        calls w' = calls w ++ match ds with [] => [] | _ => [FinishRenderMath] end /\
        match visibleRanges view with
        | [] => ds = [] /\ w' = w
        | _ => lastIndex w' = 0
        end) /\
    (exists ds w',
        MainTs.buildDecorations view w = Some (ds, w') /\
        calls w' = calls w ++ match ds with [] => [] | _ => [FinishRenderMath] end /\
        match visibleRanges view with
        | [] => ds = [] /\ w' = w
        | _ => lastIndex w' = 0
        end).
Proof.
  intros view w. split.
  - rewrite js_buildDecorations_spec. cbv zeta. do 2 eexists.
    split; [reflexivity|]. unfold after_rebuild, decorations_of. cbn [calls lastIndex].
    split.
    + now destruct (flat_map _ _).
    + destruct (visibleRanges view); auto. simpl. rewrite app_nil_r.
      split; auto. now destruct w.
  - rewrite ts_buildDecorations_spec. cbv zeta. do 2 eexists.
    split; [reflexivity|]. unfold after_rebuild, decorations_of. cbn [calls lastIndex].
    split.
    + now destruct (flat_map _ _).
    + destruct (visibleRanges view); auto. simpl. rewrite app_nil_r.
      split; auto. now destruct w.
Qed.

(** X13.  The shared regular expression is never left in the middle of a
    scan.  One [exec] leaves the host alone and either returns null with
    [lastIndex] back at 0, or returns a match that starts at or after the
    old [lastIndex] (when that was inside the text) and sets [lastIndex]
    to its end, further on and still inside the text; beyond the end of
    the text it returns null.  [replaceTextNodeWithMath] always ends with
    [lastIndex] at 0, and so does [processElement] when it collected a
    node. *)
Theorem X13_lastIndex_moves_forward_and_ends_at_zero {H : Host} :
  (forall text w,
      exists r w',
        exec text w = Some (r, w') /\
        mathjax w' = mathjax w /\ calls w' = calls w /\
        match r with
        | None => lastIndex w' = 0
        | Some m =>
            lastIndex w <= index m /\ lastIndex w' = match_end m /\
            lastIndex w < lastIndex w' /\ lastIndex w' <= length text
        end /\
        (length text < lastIndex w -> r = None)) /\
  (forall text parentNode w,
      exists r w',
        replaceTextNodeWithMath text parentNode w = Some (r, w') /\
        lastIndex w' = 0) /\
  (forall element w,
      exists element' w',
        processElement element w = Some (element', w') /\
        match nodesToProcess element with
        | [] => lastIndex w' = lastIndex w
        | _ => lastIndex w' = 0
        end).
Proof.
  repeat apply conj.
  - intros text w. unfold exec.
    destruct (Nat.ltb_spec (length text) (lastIndex w)) as [Hlt|Hle].
    + do 2 eexists. repeat split; auto.
    + destruct (search_from TOLERANT_MATH_REGEX text (lastIndex w)) as [m|] eqn:Hs.
      * pose proof (tolerant_bounds (search_from_sound _ Hle Hs)) as (H1 & H2 & H3).
        do 2 eexists. split; [reflexivity|]. cbn [mathjax calls lastIndex].
        repeat split; auto; try lia.
      * do 2 eexists. repeat split; auto.
  - intros text parentNode w. rewrite replaceTextNodeWithMath_spec.
    destruct (outcomes _ _). cbv zeta. eauto.
  - intros element w. rewrite processElement_spec.
    destruct (leaves _ _). cbv zeta. do 2 eexists. split; [reflexivity|].
    now destruct (nodesToProcess element).
Qed.

(** ** Live Preview: the view plugin *)

Section PluginInvariant.
Context {H : Host}.
Variable build : EditorView -> M DecorationSet.
Variable fresh : EditorView -> DecorationSet.
Hypothesis build_fresh : forall v w, exists w', build v w = Some (fresh v, w').

Lemma plugin_updates :
  forall updates v w,
    exists w',
      for_of updates (fun update decorations =>
                        plugin_update build decorations update) (fresh v) w =
      Some (fresh (latest_view v updates), w').
Proof.
  induction updates as [|u us IH]; intros v w; cbn [for_of latest_view fold_left].
  - unfold ret. eauto.
  - unfold plugin_update at 1.
    destruct (docChanged u || viewportChanged u || selectionSet u).
    + destruct (build_fresh (view u) w) as (w1 & Hb).
      erewrite bind_Some by exact Hb. apply IH.
    + erewrite bind_Some by reflexivity. apply IH.
Qed.

Lemma plugin_run_fresh view0 updates w :
  exists w',
    plugin_run build view0 updates w =
    Some (fresh (latest_view view0 updates), w').
Proof.
  unfold plugin_run, plugin_constructor.
  destruct (build_fresh view0 w) as (w1 & Hb).
  erewrite bind_Some by exact Hb. apply plugin_updates.
Qed.
End PluginInvariant.

(** X14.  The view plugin never shows stale decorations: after its
    construction and any series of updates, it holds exactly the
    decorations a rebuild returns for the view of the last update that
    reported a document, viewport or selection change (the view it was
    constructed with, if none did).  An update that reports no change
    keeps the decorations and calls nothing. *)
Theorem X14_plugin_holds_the_latest_rebuild {H : Host} :
  (forall view0 updates w,
      exists ds w' w1,
        plugin_run MainJs.buildDecorations view0 updates w = Some (ds, w') /\
        MainJs.buildDecorations (latest_view view0 updates) w = Some (ds, w1)) /\
  (forall view0 updates w,
      exists ds w' w1,
        plugin_run MainTs.buildDecorations view0 updates w = Some (ds, w') /\
        MainTs.buildDecorations (latest_view view0 updates) w = Some (ds, w1)) /\
  (forall build decorations v w,
      plugin_update build decorations (mkUpdate false false false v) w =
      Some (decorations, w)).
Proof.
  repeat apply conj.
  - intros view0 updates w.
    destruct (@plugin_run_fresh _ MainJs.buildDecorations
                (fun v => decorations_of [] (selection_ranges v) v)
                (fun v w => ex_intro _ _ (js_buildDecorations_spec v w))
                view0 updates w) as (w' & Hrun).
    do 3 eexists. split; [exact Hrun|]. apply js_buildDecorations_spec.
  - intros view0 updates w.
    destruct (@plugin_run_fresh _ MainTs.buildDecorations
                (fun v => decorations_of (MainTs.nativeMathRanges v)
                                         (selection_ranges v) v)
                (fun v w => ex_intro _ _ (ts_buildDecorations_spec v w))
                view0 updates w) as (w' & Hrun).
    do 3 eexists. split; [exact Hrun|]. apply ts_buildDecorations_spec.
  - reflexivity.
Qed.

(** ** What reaches the renderer *)

Lemma trimStart_suffix s :
  exists p, s = p ++ trimStart s /\ forallb is_js_whitespace p = true.
Proof.
  induction s as [|c s (p & Hp & Hws)]; simpl.
  - exists []. auto.
  - destruct (is_js_whitespace c) eqn:Hc.
    + exists (c :: p). simpl. rewrite Hc, Hws. split; auto. now f_equal.
    + exists []. auto.
Qed.

Lemma trimStart_head s c t : trimStart s = c :: t -> is_js_whitespace c = false.
Proof.
  induction s as [|x s IH]; simpl; [discriminate|].
  destruct (is_js_whitespace x) eqn:Hx; auto.
  intros Heq. injection Heq as <- _. exact Hx.
Qed.

Lemma trimStart_In s c : In c (trimStart s) -> In c s.
Proof.
  destruct (trimStart_suffix s) as (p & Hp & _). intros Hin.
  rewrite Hp. apply in_or_app. now right.
Qed.

Lemma trim_In s c : In c (trim s) -> In c s.
Proof.
  unfold trim, trimEnd. intros Hin. apply in_rev in Hin.
  apply trimStart_In in Hin. apply in_rev in Hin. now apply trimStart_In in Hin.
Qed.

Lemma trim_head s c t : trim s = c :: t -> is_js_whitespace c = false.
Proof.
  unfold trim, trimEnd. intros Heq.
  destruct (trimStart_suffix (rev (trimStart s))) as (p & Hp & _).
  apply (f_equal (@rev _)) in Hp.
  rewrite rev_involutive, rev_app_distr, Heq in Hp.
  simpl in Hp. eapply trimStart_head; eauto.
Qed.

Lemma trim_last s p c : trim s = p ++ [c] -> is_js_whitespace c = false.
Proof.
  unfold trim, trimEnd. intros Heq.
  apply (f_equal (@rev _)) in Heq.
  rewrite rev_involutive, rev_app_distr in Heq. simpl in Heq.
  eapply trimStart_head; eauto.
Qed.

Lemma clean_trim s :
  Forall (fun c => c <> DOLLAR /\ c <> NEWLINE) s -> clean (trim s).
Proof.
  intros Hall. rewrite Forall_forall in Hall. repeat split.
  - intros Hin. apply trim_In in Hin. now apply Hall in Hin.
  - intros Hin. apply trim_In in Hin. now apply Hall in Hin.
  - intros c t. apply trim_head.
  - intros p c. apply trim_last.
Qed.

Lemma tolerant_clean text lo m : tolerant text lo m -> clean (trim (m1 m)).
Proof.
  intros [pre l r rest _ _ _ _ _ _ _ Hbo _ _ _ _]. apply clean_trim.
  eapply Forall_impl; [|exact Hbo]. apply is_body_spec.
Qed.

Lemma calls_of_clean lps :
  Forall (fun lp => map fst (snd lp) = matchAll (fst lp)) lps ->
  Forall (fun c => match c with
                   | RenderMath source display _ => display = false /\ clean source
                   | FinishRenderMath => False
                   end) (calls_of lps).
Proof.
  intros Hall. apply Forall_forall. intros c Hin. unfold calls_of in Hin.
  apply in_flat_map in Hin. destruct Hin as ([t ps] & Hlp & Hin).
  apply in_map_iff in Hin. destruct Hin as ([m r] & <- & Hp).
  rewrite Forall_forall in Hall. specialize (Hall _ Hlp). simpl in Hall, Hp.
  unfold call_of. simpl. split; auto.
  assert (Hm : In m (matchAll t)).
  { rewrite <- Hall. apply in_map_iff. exists (m, r). auto. }
  eapply tolerant_clean. eapply chain_In; [apply matchAll_chain | exact Hm].
Qed.

(** X7.  The renderer only ever gets clean sources, inline.  Every render
    call of [processElement] asks for inline math and passes a source
    without dollar, without newline and without white space at either end;
    so does the call [toDOM] makes for the widget of any decoration a
    rebuild returns. *)
Theorem X7_render_sources_are_clean {H : Host} :
  (forall element w,
      exists element' w' evs,
        processElement element w = Some (element', w') /\
        calls w' = calls w ++ evs /\
        Forall (fun c => match c with
                         | RenderMath source display _ =>
                             display = false /\ clean source
                         | FinishRenderMath => True
                         end) evs) /\
  (forall view w,
      exists ds w',
        MainJs.buildDecorations view w = Some (ds, w') /\
        Forall (fun d => clean (formula (widget d))) ds) /\
  (forall view w,
      exists ds w',
        MainTs.buildDecorations view w = Some (ds, w') /\
        Forall (fun d => clean (formula (widget d))) ds) /\
  (forall this w,
      exists span w' returned,
        toDOM this w = Some (span, w') /\
        calls w' = calls w ++ [RenderMath (formula this) false returned]).
Proof.
  assert (Hds : forall native cursors view,
             Forall (fun d => clean (formula (widget d)))
                    (decorations_of native cursors view)).
  { intros native cursors view.
    eapply Forall_impl; [|apply decorations_of_span].
    intros d (_ & _ & l & body & r & _ & _ & _ & _ & Hbo & _ & _ & ->).
    now apply clean_trim. }
  repeat apply conj.
  - intros element w. rewrite processElement_spec.
    pose proof (leaves_matches (nodesToProcess element) (mathjax w)) as Hms.
    destruct (leaves _ _) as [lps mj']. simpl in Hms. cbv zeta.
    do 3 eexists. split; [reflexivity|]. split; [reflexivity|].
    apply Forall_app. split.
    + eapply Forall_impl; [|apply (calls_of_clean Hms)].
      intros [source display ok|]; auto.
    + destruct (existsb _ lps); repeat constructor.
  - intros view w. rewrite js_buildDecorations_spec. cbv zeta.
    do 2 eexists. split; [reflexivity|]. apply Hds.
  - intros view w. rewrite ts_buildDecorations_spec. cbv zeta.
    do 2 eexists. split; [reflexivity|]. apply Hds.
  - intros this w. unfold toDOM, bind, renderMath.
    destruct (host_renderMath (formula this) false (mathjax w)) as [[el|] mj'];
      simpl; do 3 eexists; split; reflexivity.
Qed.

(** ** Reading View: nothing is lost, nothing else is touched *)

Lemma slice_join (s : JsString) a b :
  a <= b -> slice s a b ++ skipn b s = skipn a s.
Proof.
  intros Hab. unfold slice.
  replace (skipn b s) with (skipn (b - a) (skipn a s))
    by (rewrite skipn_skipn; f_equal; lia).
  apply firstn_skipn.
Qed.

Lemma length_slice_inside (s : JsString) a b :
  b <= length s -> length (slice s a b) = b - a.
Proof. intros Hb. unfold slice. rewrite length_firstn, length_skipn. lia. Qed.

Lemma end_of_cons lastIdx p ps :
  end_of lastIdx (p :: ps) = end_of (match_end (fst p)) ps.
Proof. reflexivity. Qed.

Lemma unrender_app_text ts f raws :
  Forall (fun n => is_element n = false) ts ->
  unrender (ts ++ f) raws =
  concat (map (fun n => match n with TextNode s => s | _ => [] end) ts) ++
  unrender f raws.
Proof.
  induction 1 as [|n ts Hn _ IH]; simpl; auto.
  destruct n; [|discriminate]. simpl. now rewrite IH, app_assoc.
Qed.

Lemma unrender_assemble text :
  forall ps lastIdx,
    lastIdx <= length text -> chain text lastIdx (map fst ps) ->
    unrender (assemble text lastIdx ps ++ tail_of text (end_of lastIdx ps))
             (rendered_raws ps) =
    skipn lastIdx text.
Proof.
  induction ps as [|[m r] ps IH]; intros lastIdx Hle Hc.
  - simpl. unfold tail_of, end_of, slice_from. simpl.
    destruct (Nat.ltb_spec lastIdx (length text)); simpl.
    + now rewrite app_nil_r.
    + rewrite skipn_all2; auto.
  - destruct Hc as [Ht Hc]. cbn [fst] in *.
    pose proof (tolerant_bounds Ht) as (H1 & H2 & H3).
    specialize (IH _ H3 Hc).
    cbn [assemble]. rewrite end_of_cons. cbn [fst].
    rewrite <- app_assoc.
    assert (Hgap : forall f raws,
               unrender (gap text lastIdx m ++ f) raws =
               slice text lastIdx (index m) ++ unrender f raws).
    { intros f raws. unfold gap.
      destruct (Nat.ltb_spec lastIdx (index m)); simpl; auto.
      replace lastIdx with (index m) by lia.
      unfold slice. now rewrite Nat.sub_diag. }
    rewrite Hgap. rewrite <- (slice_join text H1). f_equal.
    assert (Hunit : unrender (unit_of m r :: assemble text (match_end m) ps ++
                              tail_of text (end_of (match_end m) ps))
                             (rendered_raws ((m, r) :: ps)) =
                    m0 m ++ skipn (match_end m) text).
    { destruct r as [el|]; simpl; unfold rendered_raws in *; simpl;
        now rewrite IH. }
    cbn [app]. rewrite Hunit, (tolerant_slice Ht).
    apply slice_join. lia.
Qed.

Lemma assemble_shape text :
  forall ps lastIdx,
    lastIdx <= length text -> chain text lastIdx (map fst ps) ->
    Forall (fun n => n <> TextNode [])
           (assemble text lastIdx ps ++ tail_of text (end_of lastIdx ps)) /\
    length (filter is_element
                   (assemble text lastIdx ps ++ tail_of text (end_of lastIdx ps))) =
    length (rendered_raws ps).
Proof.
  induction ps as [|[m r] ps IH]; intros lastIdx Hle Hc.
  - simpl. unfold tail_of, end_of, slice_from. simpl.
    destruct (Nat.ltb_spec lastIdx (length text)); simpl; auto.
    split; auto. constructor; auto. intros Heq. injection Heq as Heq.
    apply (f_equal (@length _)) in Heq. rewrite length_skipn in Heq.
    simpl in Heq. lia.
  - destruct Hc as [Ht Hc]. cbn [fst] in *.
    pose proof (tolerant_bounds Ht) as (H1 & H2 & H3).
    destruct (IH _ H3 Hc) as [IH1 IH2].
    cbn [assemble]. rewrite end_of_cons. cbn [fst].
    rewrite <- app_assoc. cbn [app]. unfold gap.
    assert (Hu : unit_of m r <> TextNode []).
    { destruct r; simpl; [discriminate|]. intros Heq. injection Heq as Heq.
      unfold match_end in H2. rewrite Heq in H2. simpl in H2. lia. }
    assert (Hcount :
              length (filter is_element
                        (unit_of m r :: assemble text (match_end m) ps ++
                         tail_of text (end_of (match_end m) ps))) =
              length (rendered_raws ((m, r) :: ps))).
    { unfold rendered_raws in *. destruct r; simpl; now rewrite IH2. }
    destruct (Nat.ltb_spec lastIdx (index m)); cbn [app filter is_element].
    + split; auto. constructor; [|constructor; auto].
      intros Heq. injection Heq as Heq.
      apply (f_equal (@length _)) in Heq.
      rewrite length_slice_inside in Heq by lia. simpl in Heq. lia.
    + split; auto.
Qed.

(** X6.  The fragment that replaces a text node holds the whole text and
    nothing more: reading its text nodes as they are and each rendered
    element as the match it stands for, in order, gives back the text of
    the node.  There are as many elements as render calls that returned,
    and no text node of the fragment is empty. *)
Theorem X6_fragment_reads_back_as_the_text {H : Host} :
  forall text parentNode w,
    exists didReplace edit w' ps,
      replaceTextNodeWithMath text parentNode w = Some ((didReplace, edit), w') /\
      ps = fst (outcomes (matchAll text) (mathjax w)) /\
      forall fragment,
        edit = Some fragment ->
        unrender fragment (rendered_raws ps) = text /\
        length (filter is_element fragment) = length (rendered_raws ps) /\
        Forall (fun n => n <> TextNode []) fragment.
Proof.
  intros text parentNode w. rewrite replaceTextNodeWithMath_spec.
  pose proof (outcomes_fst (matchAll text) (mathjax w)) as Hfst.
  destruct (outcomes (matchAll text) (mathjax w)) as [ps mj']. simpl in Hfst.
  cbv zeta. do 3 eexists. exists ps. split; [reflexivity|]. split; [reflexivity|].
  intros fragment Hedit.
  destruct (existsb _ ps && parentNode); [|discriminate].
  injection Hedit as <-.
  assert (Hc : chain text 0 (map fst ps))
    by (rewrite Hfst; apply matchAll_chain).
  destruct (@assemble_shape text ps 0 (Nat.le_0_l _) Hc) as [Hne Hcount].
  repeat split; auto.
  apply (@unrender_assemble text ps 0 (Nat.le_0_l _) Hc).
Qed.

(** With the toy host, [$ a $ and $ \oops $] becomes an element, [ and ]
    and the raw [$ \oops $]; read back with [$ a $] for the element it is
    the text again. *)
Lemma X6_witness :
  exists fragment,
    unrender fragment [js "$ a $"] = js "$ a $ and $ \oops $" /\
    length (filter is_element fragment) = 1.
Proof.
  destruct (@X6_fragment_reads_back_as_the_text toyHost
              (js "$ a $ and $ \oops $") true toyWorld)
    as (didReplace & edit & w' & ps & Hrun & Hps & Hread).
  vm_compute in Hps. subst ps.
  assert (Hedit : exists fragment, edit = Some fragment).
  { vm_compute in Hrun. injection Hrun as _ <- _. eauto. }
  destruct Hedit as (fragment & Hedit).
  destruct (Hread fragment Hedit) as (H1 & H2 & _).
  exists fragment. split; [exact H1 | exact H2].
Defined.

Lemma str_eqb_eq a : forall b, str_eqb a b = true <-> a = b.
Proof.
  induction a as [|x a IH]; intros [|y b]; simpl; split; try discriminate; auto.
  - intros Hxy. apply andb_true_iff in Hxy. destruct Hxy as [Hx Ha].
    apply char_eqb_eq in Hx. apply IH in Ha. now subst.
  - intros Heq. injection Heq as -> ->. apply andb_true_iff. split.
    + now apply char_eqb_eq.
    + now apply IH.
Qed.

Lemma contains_In cl c : In c cl -> contains cl c = true.
Proof.
  intros Hin. unfold contains. apply existsb_exists. exists c. split; auto.
  now apply str_eqb_eq.
Qed.

Lemma walk_dollar_free :
  forall n parent, dollar_free n = true -> walk parent n = [].
Proof.
  induction n as [t|tag cl kids IH] using Node_nested_ind; intros parent Hfree.
  - cbn [walk dollar_free] in *. unfold acceptNode. destruct parent as [ptag pcl].
    rewrite Hfree.
    destruct (str_eqb ptag _ || _ || _ || _); [reflexivity|].
    now destruct (contains pcl _ || _ || _).
  - cbn [walk dollar_free] in *. rewrite forallb_forall in Hfree.
    rewrite Forall_forall in IH.
    assert (Hk : forall k, In k kids -> walk (tag, cl) k = [])
      by (intros k Hin; apply IH; auto).
    clear IH Hfree. induction kids as [|k kids IHk]; simpl; auto.
    rewrite Hk by now left. simpl. apply IHk. intros k' Hin. apply Hk. now right.
Qed.

Lemma nothing_collected {H : Host} element w :
  nodesToProcess element = [] -> processElement element w = Some (element, w).
Proof.
  intros Hnone. rewrite processElement_spec, Hnone. simpl.
  rewrite (@spliced_none element []) by constructor.
  rewrite app_nil_r. now destruct w.
Qed.

(** X8.  [processElement] touches nothing it has no reason to touch: when
    no text node is collected it returns the element as it was, calls
    nothing and leaves [lastIndex] alone.  That is so when no text below
    the element holds a dollar, and when the element is a [CODE], [PRE],
    [MATH] or [SCRIPT] element, or has the class [math], [math-inline] or
    [math-block], and all its children are text nodes. *)
Theorem X8_inert_elements_come_back_untouched {H : Host} element w :
  (nodesToProcess element = [] ->
   processElement element w = Some (element, w)) /\
  (forallb dollar_free (childNodes element) = true ->
   processElement element w = Some (element, w)) /\
  (tagName element = js "CODE" \/ tagName element = js "PRE" \/
   tagName element = js "MATH" \/ tagName element = js "SCRIPT" \/
   In (js "math") (classList element) \/
   In (js "math-inline") (classList element) \/
   In (js "math-block") (classList element) ->
   Forall (fun n => exists t, n = TextNode t) (childNodes element) ->
   processElement element w = Some (element, w)).
Proof.
  repeat apply conj.
  - apply nothing_collected.
  - intros Hfree. apply nothing_collected. unfold nodesToProcess.
    rewrite forallb_forall in Hfree.
    induction (childNodes element) as [|k kids IH]; simpl; auto.
    rewrite walk_dollar_free by (apply Hfree; now left).
    apply IH. intros n Hn. apply Hfree. now right.
  - intros Hrej Htexts. apply nothing_collected. unfold nodesToProcess.
    assert (Hacc : forall t,
               acceptNode (Some (tagName element, classList element)) t = false).
    { intros t. unfold acceptNode.
      destruct Hrej as [Ht|[Ht|[Ht|[Ht|[Hc|[Hc|Hc]]]]]];
        try (rewrite Ht; reflexivity);
        apply contains_In in Hc; rewrite Hc;
        rewrite ?orb_true_r;
        now destruct (_ || _ || _ || _). }
    induction Htexts as [|k kids (t & ->) _ IH]; cbn [flat_map walk]; auto.
    now rewrite Hacc.
Qed.

Lemma X8_witness :
  @processElement toyHost
    (mkElement (js "CODE") [] [TextNode (js "$ formula $")]) toyWorld =
  Some (mkElement (js "CODE") [] [TextNode (js "$ formula $")], toyWorld).
Proof.
  apply (proj2 (proj2 (@X8_inert_elements_come_back_untouched toyHost
                         (mkElement (js "CODE") [] [TextNode (js "$ formula $")])
                         toyWorld))).
  - left. reflexivity.
  - repeat constructor. eexists. reflexivity.
Defined.
